(** * The user-management dependency-injection example

    A shallow embedding of the three-layer chain
    [UserController -> BussinessService -> UserRepositoryService]
    and of the mock [localStorage] it writes to, together with the part
    of the JavaScript runtime the repository relies on
    ([JSON.stringify], the [||] operator, [Map]), and the properties
    the specification states about them. *)

From Stdlib Require Import ZArith QArith String Ascii DecimalString DecimalFacts DecimalPos DecimalZ Sorted.
From stdpp Require Import gmap strings list.

Local Open Scope Z_scope.
Local Open Scope string_scope.

(** ** Runtime values

    TypeScript's types are erased at run time: [userDetails : any] is
    any JavaScript value, and the [Map<string, string>] of the mock
    store holds whatever [JSON.stringify] handed to [setItem]. *)

(** Numbers are doubles in JavaScript.  A finite double is named here
    by the decimal that [Number::toString] writes for it, the shortest
    one that reads back as this double: [NInt z] when that decimal is
    the whole number [z] (zero is the positive zero), and
    [NDec negative s e] when it is not whole, the number
    [s * 10^e] or its opposite, with [e < 0] and [s] no multiple of
    ten.  [NNegZero] is the negative zero. *)
Inductive number : Type :=
  | NInt (z : Z)
  | NNaN
  | NInfinity (negative : bool)
  | NNegZero
  | NDec (negative : bool) (s : positive) (e : Z).

(** Addresses of heap-allocated objects. *)
Definition loc : Type := positive.

(** Strings are sequences of code units; the model keeps the code units
    below 256, one [ascii] each. *)
Inductive val : Type :=
  | VUndefined
  | VNull
  | VBool (b : bool)
  | VNum (n : number)
  | VStr (s : string)
  | VBigInt (z : Z)
  | VSymbol (description : string)
  | VRef (l : loc).

(** Objects live in the heap and are handled by reference, so that two
    properties may hold the same object and an object may reach itself.
    [props] lists the own enumerable string-keyed properties in the
    order the runtime enumerates them. *)
Inductive object : Type :=
  | OObj (props : list (string * val))
  | OArr (elems : list val)
  | OFun.

#[global] Instance number_eq_dec : EqDecision number.
Proof. solve_decision. Defined.
#[global] Instance val_eq_dec : EqDecision val.
Proof. solve_decision. Defined.
#[global] Instance object_eq_dec : EqDecision object.
Proof. solve_decision. Defined.

(** The two kinds of error the modelled code can meet. *)
Inductive error : Type := TypeError | SyntaxError.

(** The completion of an evaluation: a value, a thrown error, or
    [Stuck] when the model itself cannot go on (a reference to an
    address the heap does not hold), which no JavaScript program can
    produce. *)
Inductive outcome (A : Type) : Type :=
  | Ret (a : A)
  | Throw (e : error)
  | Stuck.
Arguments Ret {A} a.
Arguments Throw {A} e.
Arguments Stuck {A}.

(** [ToBoolean], the truthiness test behind [||]. *)
Definition ToBoolean (v : val) : bool :=
  match v with
  | VUndefined | VNull => false
  | VBool b => b
  | VNum (NInt z) => negb (z =? 0)%Z
  | VNum NNaN | VNum NNegZero => false
  | VNum (NInfinity _) | VNum (NDec _ _ _) => true
  | VStr s => negb (String.eqb s "")
  | VBigInt z => negb (z =? 0)%Z
  | VSymbol _ | VRef _ => true
  end.

(** [a || b] on values already evaluated. *)
Definition js_or (a b : val) : val := if ToBoolean a then a else b.

(** ** JSON.stringify

    The algorithm of the language specification (SerializeJSONProperty,
    SerializeJSONObject, SerializeJSONArray, QuoteJSONString) for the
    call [JSON.stringify(value)]: no replacer, no indentation.  The
    objects of the model are plain data: no [toJSON] method, no getter,
    no boxed primitive, no hole in an array. *)

Definition dquote : ascii := ascii_of_nat 34.
Definition backslash : ascii := ascii_of_nat 92.

Definition hex_digit (n : N) : ascii :=
  if (n <? 10)%N then ascii_of_N (48 + n) else ascii_of_N (87 + n).

(** One code unit of a quoted string (QuoteJSONString). *)
Definition escape_char (c : ascii) : string :=
  let n := N_of_ascii c in
  if Ascii.eqb c dquote then String backslash (String dquote "")
  else if Ascii.eqb c backslash then String backslash (String backslash "")
  else if (n =? 8)%N then String backslash "b"
  else if (n =? 9)%N then String backslash "t"
  else if (n =? 10)%N then String backslash "n"
  else if (n =? 12)%N then String backslash "f"
  else if (n =? 13)%N then String backslash "r"
  else if (n <? 32)%N then
    String backslash
      (String "u" (String "0" (String "0"
         (String (hex_digit (n / 16)) (String (hex_digit (n mod 16)) "")))))
  else String c "".

Fixpoint escape_string (s : string) : string :=
  match s with
  | EmptyString => ""
  | String c s' => escape_char c +:+ escape_string s'
  end.

Definition QuoteJSONString (s : string) : string :=
  String dquote (escape_string s +:+ String dquote "").

(** The decimal digits of a positive whole number. *)
Definition digits_of (p : positive) : string :=
  NilEmpty.string_of_uint (Pos.to_uint p).

(** [p] without its zeros at the end, and their number added to [t]. *)
Fixpoint strip_zeros (fuel : nat) (p : positive) (t : Z) : positive * Z :=
  match fuel with
  | O => (p, t)
  | S fuel' =>
      if (Z.pos p mod 10 =? 0)%Z then
        match (Z.pos p / 10)%Z with
        | Z.pos q => strip_zeros fuel' q (t + 1)
        | _ => (p, t)
        end
      else (p, t)
  end.

(** [p] as [s * 10^t] with [s] no multiple of ten; the size of [p] in
    bits is fuel enough. *)
Definition shortest (p : positive) : positive * Z :=
  strip_zeros (Pos.size_nat p) p 0.

(** [m] zeros. *)
Fixpoint zeros (m : nat) : string :=
  match m with
  | O => ""
  | S m' => String "0" (zeros m')
  end.

(** The first [n] characters of [s], and the others. *)
Fixpoint string_take (n : nat) (s : string) : string :=
  match n, s with
  | S n', String c s' => String c (string_take n' s')
  | _, _ => ""
  end.

Fixpoint string_drop (n : nat) (s : string) : string :=
  match n, s with
  | S n', String _ s' => string_drop n' s'
  | _, _ => s
  end.

(** The first digit, the other digits after a point if there are any,
    and the exponent with its sign. *)
Definition exponent_form (ds : string) (x : Z) : string :=
  match ds with
  | String d rest =>
      String d
        ((if String.eqb rest "" then "" else String "." rest) +:+
         String "e"
           match x with
           | Z.neg q => String "-" (digits_of q)
           | Z.pos q => String "+" (digits_of q)
           | Z0 => "+0"
           end)
  | EmptyString => ""
  end.

(** [Number::toString] on a whole number: all its digits below
    [10^21], and from there on the digits that are left without the
    zeros at the end, with an exponent. *)
Definition Number_toString (z : Z) : string :=
  if (Z.abs z <? 10 ^ 21)%Z then NilZero.string_of_int (Z.to_int z)
  else
    match z with
    | Z.pos p | Z.neg p =>
        let '(s, t) := shortest p in
        (if (z <? 0)%Z then "-" else "") +:+
        exponent_form (digits_of s) (Z.of_nat (String.length (digits_of s)) + t - 1)
    | Z0 => "0"
    end.

(** [Number::toString] on a number that is not whole: with [k] digits
    and [n = k + e], the point after the first [n] digits when
    [0 < n <= 21], after a zero and [-n] more zeros when
    [-6 < n <= 0], and an exponent otherwise. *)
Definition Fraction_toString (negative : bool) (s : positive) (e : Z) : string :=
  let ds := digits_of s in
  let n := Z.of_nat (String.length ds) + e in
  (if negative then "-" else "") +:+
  (if (0 <? n)%Z && (n <=? 21)%Z then
     string_take (Z.to_nat n) ds +:+ String "." (string_drop (Z.to_nat n) ds)
   else if (-6 <? n)%Z && (n <=? 0)%Z then
     String "0" (String "." (zeros (Z.to_nat (- n)) +:+ ds))
   else exponent_form ds (n - 1)).

(** A number in a JSON text: a finite one as [Number::toString] writes
    it, and [null] for the others. *)
Definition SerializeNumber (n : number) : string :=
  match n with
  | NInt z => Number_toString z
  | NNegZero => "0"
  | NDec negative s e => Fraction_toString negative s e
  | NNaN | NInfinity _ => "null"
  end.

(** The members of an object, in enumeration order; a property whose
    value serializes to [undefined] is left out. *)
Fixpoint SerializeJSONObject_members
    (ser : val -> outcome (option string)) (props : list (string * val))
    : outcome (list string) :=
  match props with
  | [] => Ret []
  | (k, v) :: rest =>
      match ser v with
      | Ret None => SerializeJSONObject_members ser rest
      | Ret (Some s) =>
          match SerializeJSONObject_members ser rest with
          | Ret ms => Ret ((QuoteJSONString k +:+ ":" +:+ s) :: ms)
          | Throw e => Throw e
          | Stuck => Stuck
          end
      | Throw e => Throw e
      | Stuck => Stuck
      end
  end.

(** The elements of an array; an element that serializes to
    [undefined] is written [null]. *)
Fixpoint SerializeJSONArray_elements
    (ser : val -> outcome (option string)) (elems : list val)
    : outcome (list string) :=
  match elems with
  | [] => Ret []
  | v :: rest =>
      match ser v with
      | Ret o =>
          match SerializeJSONArray_elements ser rest with
          | Ret ms => Ret (default "null" o :: ms)
          | Throw e => Throw e
          | Stuck => Stuck
          end
      | Throw e => Throw e
      | Stuck => Stuck
      end
  end.

Definition wrap (opening closing : string) (parts : list string) : string :=
  opening +:+ String.concat "," parts +:+ closing.

(** SerializeJSONProperty for a value already read from its holder.
    [stack] holds the objects being serialized, innermost first: meeting
    one of them again is the cyclic structure that raises a TypeError.
    [fuel] bounds the nesting depth. *)
Fixpoint SerializeJSONProperty
    (fuel : nat) (h : gmap loc object) (stack : list loc) (v : val)
    : outcome (option string) :=
  match v with
  | VNull => Ret (Some "null")
  | VBool true => Ret (Some "true")
  | VBool false => Ret (Some "false")
  | VStr s => Ret (Some (QuoteJSONString s))
  | VNum n => Ret (Some (SerializeNumber n))
  | VBigInt _ => Throw TypeError
  | VUndefined | VSymbol _ => Ret None
  | VRef l =>
      match h !! l with
      | None => Stuck
      | Some OFun => Ret None
      | Some o =>
          if bool_decide (l ∈ stack) then Throw TypeError
          else
            match fuel with
            | O => Stuck
            | S fuel' =>
                let ser := SerializeJSONProperty fuel' h (l :: stack) in
                match o with
                | OObj props =>
                    match SerializeJSONObject_members ser props with
                    | Ret ms => Ret (Some (wrap "{" "}" ms))
                    | Throw e => Throw e
                    | Stuck => Stuck
                    end
                | OArr elems =>
                    match SerializeJSONArray_elements ser elems with
                    | Ret ms => Ret (Some (wrap "[" "]" ms))
                    | Throw e => Throw e
                    | Stuck => Stuck
                    end
                | OFun => Ret None
                end
            end
      end
  end.

(** [JSON.stringify(value)] with no replacer and no indentation.  The
    stack only holds distinct addresses of the heap, so a nesting deeper
    than the heap has objects is impossible: [S (size h)] is enough. *)
Definition JSON_stringify (h : gmap loc object) (v : val) : outcome (option string) :=
  SerializeJSONProperty (S (size h)) h [] v.

(** ** Stateful code

    The program's state is the heap of objects the caller built and the
    [storage] field of the module-level [localStorage] object.  A method
    is a function from the state to a completion and the state it
    leaves; state changes made before a throw persist. *)

Record world : Type := World {
  heap : gmap loc object;
  storage : gmap string val;
}.

Definition M (A : Type) : Type := world → outcome A * world.

#[global] Instance M_ret : MRet M := λ A a w, (Ret a, w).
#[global] Instance M_bind : MBind M := λ A B f m w,
  match m w with
  | (Ret a, w') => f a w'
  | (Throw e, w') => (Throw e, w')
  | (Stuck, w') => (Stuck, w')
  end.

(** [try { body } catch (ex) { handler }]: the handler runs on a thrown
    error and on nothing else. *)
Definition try_catch {A : Type} (body : M A) (handler : error → M A) : M A :=
  λ w,
    match body w with
    | (Throw e, w') => handler e w'
    | r => r
    end.

(** A built-in that reads the heap and may throw. *)
Definition call_stringify (v : val) : M val :=
  λ w,
    match JSON_stringify (heap w) v with
    | Ret (Some s) => (Ret (VStr s), w)
    | Ret None => (Ret VUndefined, w)
    | Throw e => (Throw e, w)
    | Stuck => (Stuck, w)
    end.

(** An object literal: a new object at an unused address. *)
Definition alloc (o : object) : M val :=
  λ w,
    let l := fresh (dom (heap w)) in
    (Ret (VRef l), World (<[l := o]> (heap w)) (storage w)).

(** ** The mock localStorage (userRepositoryService.ts) *)

Module localStorage.

Definition setItem (key : string) (value : val) : M unit :=
  λ w, (Ret (), World (heap w) (<[key := value]> (storage w))).

(** [Map.prototype.get] answers [undefined] for an absent key. *)
Definition storage_get (key : string) (m : gmap string val) : val :=
  default VUndefined (m !! key).

Definition getItem (key : string) : M val :=
  λ w, (Ret (js_or (storage_get key (storage w)) VNull), w).

Definition removeItem (key : string) : M unit :=
  λ w, (Ret (), World (heap w) (delete key (storage w))).

Definition clear : M unit :=
  λ w, (Ret (), World (heap w) ∅).

End localStorage.

(** ** The interfaces *)

Module IUserRepositoryService.
Record t : Type := Build {
  getAllUsers : M val;
  saveUser : val → M bool;
}.
End IUserRepositoryService.

Module IUserBussinessService.
Record t : Type := Build {
  getAllUsers : M val;
  saveUser : val → M bool;
}.
End IUserBussinessService.

(** ** UserRepositoryService *)

Module UserRepositoryService.

Definition getAllUsers : M val :=
  localStorage.getItem "LSuserDetails".

Definition saveUser (userDetails : val) : M bool :=
  try_catch
    (s ← call_stringify userDetails;
     _ ← localStorage.setItem "LSuserDetails" s;
     mret true)
    (λ ex, mret false).

Definition new : IUserRepositoryService.t :=
  IUserRepositoryService.Build getAllUsers saveUser.

End UserRepositoryService.

(** ** BussinessService *)

Module BussinessService.

Definition getAllUsers (userRepository : IUserRepositoryService.t) : M val :=
  IUserRepositoryService.getAllUsers userRepository.

Definition saveUser (userRepository : IUserRepositoryService.t)
    (userDetails : val) : M bool :=
  IUserRepositoryService.saveUser userRepository userDetails.

Definition new (userRepository : IUserRepositoryService.t)
    : IUserBussinessService.t :=
  IUserBussinessService.Build (getAllUsers userRepository) (saveUser userRepository).

End BussinessService.

(** ** UserController *)

Module UserController.

Record t : Type := new { userBusinessService : IUserBussinessService.t }.

Definition saveUserData (this : t) (userDetails : val) : M bool :=
  IUserBussinessService.saveUser (userBusinessService this) userDetails.

Definition getAllUserData (this : t) : M val :=
  IUserBussinessService.getAllUsers (userBusinessService this).

End UserController.

(** ** The wiring of main.ts *)

Definition userRepositoryService : IUserRepositoryService.t :=
  UserRepositoryService.new.
Definition businessService : IUserBussinessService.t :=
  BussinessService.new userRepositoryService.
Definition userController : UserController.t :=
  UserController.new businessService.

(** The process starts with nothing allocated and an empty [Map]. *)
Definition fresh_world : world := World ∅ ∅.

(** Writes a JSON text with ['] standing for the double quote. *)
Definition json_text (s : string) : string :=
  string_of_list_ascii
    (List.map (λ c, if Ascii.eqb c "'"%char then dquote else c) (list_ascii_of_string s)).

Definition userData_literal : object :=
  OObj [("id", VNum (NInt 1)); ("name", VStr "John Doe");
        ("email", VStr "john@example.com")].

(** The example usage of main.ts: save, then read back. *)
Definition main : M (bool * val) :=
  userData ← alloc userData_literal;
  saveResult ← UserController.saveUserData userController userData;
  allUsers ← UserController.getAllUserData userController;
  mret (saveResult, allUsers).

(** ** JSON.parse

    The value a JSON text denotes.  A parsed value is always a tree of
    new objects, so it is given as a term rather than in the heap. *)

#[local] Set Warnings "-register-all".

Inductive json : Type :=
  | JNull
  | JBool (b : bool)
  | JNum (n : number)
  | JStr (s : string)
  | JArr (elems : list json)
  | JObj (members : list (string * json)).

Definition is_ws (c : ascii) : bool :=
  let n := N_of_ascii c in
  (n =? 32)%N || (n =? 9)%N || (n =? 10)%N || (n =? 13)%N.

Definition is_digit (c : ascii) : bool :=
  let n := N_of_ascii c in (48 <=? n)%N && (n <=? 57)%N.

Fixpoint skip_ws (s : string) : string :=
  match s with
  | String c r => if is_ws c then skip_ws r else s
  | EmptyString => ""
  end.

Fixpoint expect_literal (p s : string) : option string :=
  match p with
  | EmptyString => Some s
  | String a p' =>
      match s with
      | String b s' => if Ascii.eqb a b then expect_literal p' s' else None
      | EmptyString => None
      end
  end.

Definition hex_value (c : ascii) : option N :=
  let n := N_of_ascii c in
  if (48 <=? n)%N && (n <=? 57)%N then Some (n - 48)%N
  else if (97 <=? n)%N && (n <=? 102)%N then Some (n - 87)%N
  else if (65 <=? n)%N && (n <=? 70)%N then Some (n - 55)%N
  else None.

(** The code unit of [\uXXXX]; [None] outside the model's code units. *)
Definition unicode_escape (a b c d : ascii) : option ascii :=
  x3 ← hex_value a; x2 ← hex_value b; x1 ← hex_value c; x0 ← hex_value d;
  let n := (((x3 * 16 + x2) * 16 + x1) * 16 + x0)%N in
  if (n <? 256)%N then Some (ascii_of_N n) else None.

Definition simple_escape (e : ascii) : option ascii :=
  if Ascii.eqb e dquote then Some dquote
  else if Ascii.eqb e backslash then Some backslash
  else if Ascii.eqb e "/" then Some "/"%char
  else if Ascii.eqb e "b" then Some (ascii_of_nat 8)
  else if Ascii.eqb e "f" then Some (ascii_of_nat 12)
  else if Ascii.eqb e "n" then Some (ascii_of_nat 10)
  else if Ascii.eqb e "r" then Some (ascii_of_nat 13)
  else if Ascii.eqb e "t" then Some (ascii_of_nat 9)
  else None.

(** The characters of a string literal after its opening quote, up to
    and including the closing quote. *)
Fixpoint parse_string_body (s : string) : option (string * string) :=
  match s with
  | EmptyString => None
  | String c r =>
      if Ascii.eqb c dquote then Some ("", r)
      else if Ascii.eqb c backslash then
        match r with
        | String e r1 =>
            if Ascii.eqb e "u" then
              match r1 with
              | String x3 (String x2 (String x1 (String x0 r2))) =>
                  match unicode_escape x3 x2 x1 x0, parse_string_body r2 with
                  | Some u, Some (str, rest) => Some (String u str, rest)
                  | _, _ => None
                  end
              | _ => None
              end
            else
              match simple_escape e, parse_string_body r1 with
              | Some u, Some (str, rest) => Some (String u str, rest)
              | _, _ => None
              end
        | EmptyString => None
        end
      else if (N_of_ascii c <? 32)%N then None
      else
        match parse_string_body r with
        | Some (str, rest) => Some (String c str, rest)
        | None => None
        end
  end.

Fixpoint span_digits (s : string) : string * string :=
  match s with
  | String c r =>
      if is_digit c then
        let '(ds, rest) := span_digits r in (String c ds, rest)
      else ("", s)
  | EmptyString => ("", "")
  end.

(** The digits of a fraction, none when there is no fraction. *)
Definition parse_fraction (s : string) : option (string * string) :=
  match s with
  | String c r =>
      if Ascii.eqb c "." then
        let '(ds, rest) := span_digits r in
        if String.eqb ds "" then None else Some (ds, rest)
      else Some ("", s)
  | EmptyString => Some ("", s)
  end.

(** The exponent, zero when there is none. *)
Definition parse_exponent (s : string) : option (Z * string) :=
  match s with
  | String c r =>
      if Ascii.eqb c "e" || Ascii.eqb c "E" then
        let '(negative, r1) :=
          match r with
          | String c1 r' =>
              if Ascii.eqb c1 "-" then (true, r')
              else if Ascii.eqb c1 "+" then (false, r')
              else (false, r)
          | EmptyString => (false, r)
          end in
        let '(ds, rest) := span_digits r1 in
        if String.eqb ds "" then None
        else
          match NilEmpty.uint_of_string ds with
          | Some u => Some (if negative then - Z.of_uint u else Z.of_uint u, rest)
          | None => None
          end
      else Some (0, s)
  | EmptyString => Some (0, s)
  end.

(** The number a literal writes: the digits [int_digits] and
    [frac_digits] on both sides of the point, times ten to the [x]. *)
Definition number_of_literal (negative : bool) (int_digits frac_digits : string) (x : Z)
    : option number :=
  match NilEmpty.uint_of_string (int_digits +:+ frac_digits) with
  | Some u =>
      match N.of_uint u with
      | N0 => Some (if negative then NNegZero else NInt 0)
      | Npos p =>
          let '(s, t) := shortest p in
          let e := x - Z.of_nat (String.length frac_digits) + t in
          Some (if (0 <=? e)%Z
                then NInt ((if negative then Z.neg s else Z.pos s) * 10 ^ e)
                else NDec negative s e)
      end
  | None => None
  end.

(** A number literal after its sign: digits without a superfluous
    leading zero, then a fraction and an exponent if they are there. *)
Definition parse_unsigned (negative : bool) (s : string) : option (number * string) :=
  let '(ds, rest) := span_digits s in
  match ds with
  | EmptyString => None
  | String d ds' =>
      if Ascii.eqb d "0" && negb (String.eqb ds' "") then None
      else
        '(frac, rest1) ← parse_fraction rest;
        '(x, rest2) ← parse_exponent rest1;
        n ← number_of_literal negative ds frac x;
        Some (n, rest2)
  end.

(** A number literal: an optional minus sign, then the rest.  The
    literal is read as the number it writes, which is the double
    [JSON.parse] returns whenever the literal is the shortest decimal
    of that double: so for every literal [JSON.stringify] writes, and
    for every literal of up to 15 significant digits within the range
    of the normal doubles. *)
Definition parse_number (s : string) : option (number * string) :=
  match s with
  | String c r => if Ascii.eqb c "-" then parse_unsigned true r else parse_unsigned false s
  | EmptyString => None
  end.

(** [CreateDataProperty]: a repeated key keeps its place and takes the
    later value.  Members stay in the order of the text, which for a
    text written by [JSON.stringify] is the enumeration order. *)
Fixpoint CreateDataProperty (o : list (string * json)) (m : string * json)
    : list (string * json) :=
  match o with
  | [] => [m]
  | (k, j) :: o' =>
      if String.eqb k m.1 then (k, m.2) :: o'
      else (k, j) :: CreateDataProperty o' m
  end.

Fixpoint parse_value (fuel : nat) (s : string) : option (json * string) :=
  match fuel with
  | O => None
  | S fuel' =>
      match skip_ws s with
      | EmptyString => None
      | String c r =>
          if is_digit c || Ascii.eqb c "-" then
            '(n, rest) ← parse_number (String c r); Some (JNum n, rest)
          else if Ascii.eqb c dquote then
            '(str, rest) ← parse_string_body r; Some (JStr str, rest)
          else if Ascii.eqb c "[" then
            match skip_ws r with
            | EmptyString => None
            | String c' r' =>
                if Ascii.eqb c' "]" then Some (JArr [], r')
                else '(js, rest) ← parse_elements fuel' r; Some (JArr js, rest)
            end
          else if Ascii.eqb c "{" then
            match skip_ws r with
            | EmptyString => None
            | String c' r' =>
                if Ascii.eqb c' "}" then Some (JObj [], r')
                else
                  '(ms, rest) ← parse_members fuel' r;
                  Some (JObj (fold_left CreateDataProperty ms []), rest)
            end
          else if Ascii.eqb c "n" then
            rest ← expect_literal "ull" r; Some (JNull, rest)
          else if Ascii.eqb c "t" then
            rest ← expect_literal "rue" r; Some (JBool true, rest)
          else if Ascii.eqb c "f" then
            rest ← expect_literal "alse" r; Some (JBool false, rest)
          else None
      end
  end
with parse_elements (fuel : nat) (s : string) : option (list json * string) :=
  match fuel with
  | O => None
  | S fuel' =>
      '(j, r) ← parse_value fuel' s;
      match skip_ws r with
      | EmptyString => None
      | String c r' =>
          if Ascii.eqb c "," then
            '(js, rest) ← parse_elements fuel' r'; Some (j :: js, rest)
          else if Ascii.eqb c "]" then Some ([j], r')
          else None
      end
  end
with parse_members (fuel : nat) (s : string)
    : option (list (string * json) * string) :=
  match fuel with
  | O => None
  | S fuel' =>
      match skip_ws s with
      | EmptyString => None
      | String c r =>
          if Ascii.eqb c dquote then
            '(k, r1) ← parse_string_body r;
            match skip_ws r1 with
            | EmptyString => None
            | String c1 r2 =>
                if Ascii.eqb c1 ":" then
                  '(j, r3) ← parse_value fuel' r2;
                  match skip_ws r3 with
                  | EmptyString => None
                  | String c3 r4 =>
                      if Ascii.eqb c3 "," then
                        '(ms, rest) ← parse_members fuel' r4;
                        Some ((k, j) :: ms, rest)
                      else if Ascii.eqb c3 "}" then Some ([(k, j)], r4)
                      else None
                  end
                else None
            end
          else None
      end
  end.

(** [JSON.parse(text)]: one value, then nothing but white space.  The
    length of the text bounds the nesting of the parser's calls. *)
Definition JSON_parse (text : string) : option json :=
  match parse_value (S (String.length text)) text with
  | Some (j, rest) => if String.eqb (skip_ws rest) "" then Some j else None
  | None => None
  end.

(** ** Plain JSON data

    [print j] is the text of [j] without white space, [json_wf] says
    that [j] can be the content of JavaScript objects and is kept by a
    JSON text (the properties of an object have distinct keys; a number
    is finite and not the negative zero), and [deep_equal h v j] that
    the value [v] of the heap [h] is built like [j]: same kinds, same
    keys in the same order, same leaves. *)

Definition print_member (print : json → string) (m : string * json) : string :=
  QuoteJSONString m.1 +:+ ":" +:+ print m.2.

Fixpoint print (j : json) : string :=
  match j with
  | JNull => "null"
  | JBool true => "true"
  | JBool false => "false"
  | JNum n => SerializeNumber n
  | JStr s => QuoteJSONString s
  | JArr js => wrap "[" "]" (List.map print js)
  | JObj ms => wrap "{" "}" (List.map (print_member print) ms)
  end.

(** The numbers that a JSON text keeps: the finite ones but the
    negative zero, which is written as zero. *)
Definition json_number (n : number) : bool :=
  match n with
  | NInt _ => true
  | NDec _ s e => (e <? 0)%Z && negb (Z.pos s mod 10 =? 0)%Z
  | _ => false
  end.

Fixpoint json_wf (j : json) : bool :=
  match j with
  | JNum n => json_number n
  | JArr js => forallb json_wf js
  | JObj ms =>
      bool_decide (NoDup (List.map fst ms)) && forallb (λ m, json_wf m.2) ms
  | _ => true
  end.

Fixpoint deep_equal (h : gmap loc object) (v : val) (j : json) {struct j} : bool :=
  match j, v with
  | JNull, VNull => true
  | JBool b, VBool b' => Bool.eqb b b'
  | JNum n, VNum n' => bool_decide (n = n')
  | JStr s, VStr s' => String.eqb s s'
  | JArr js, VRef l =>
      match h !! l with
      | Some (OArr elems) =>
          (fix all2 (js : list json) (vs : list val) : bool :=
             match js, vs with
             | [], [] => true
             | j' :: js', v' :: vs' => deep_equal h v' j' && all2 js' vs'
             | _, _ => false
             end) js elems
      | _ => false
      end
  | JObj ms, VRef l =>
      match h !! l with
      | Some (OObj props) =>
          (fix all2 (ms : list (string * json)) (ps : list (string * val)) : bool :=
             match ms, ps with
             | [], [] => true
             | m :: ms', p :: ps' =>
                 String.eqb m.1 p.1 && deep_equal h p.2 m.2 && all2 ms' ps'
             | _, _ => false
             end) ms props
      | _ => false
      end
  | _, _ => false
  end.

(** The nesting of parser calls that reading [print j] takes. *)
Fixpoint json_cost (j : json) : nat :=
  match j with
  | JArr js => S (list_sum (List.map (λ j', S (json_cost j')) js))
  | JObj ms => S (list_sum (List.map (λ m, S (json_cost m.2)) ms))
  | _ => 1
  end.

(** What may follow a value inside a text: a separator, a closing
    bracket, or the end. *)
Definition delimited (rest : string) : bool :=
  match rest with
  | EmptyString => true
  | String c _ => Ascii.eqb c "," || Ascii.eqb c "]" || Ascii.eqb c "}"
  end.

(** A digit comes next. *)
Definition digit_ahead (s : string) : bool :=
  match s with
  | String c _ => is_digit c
  | EmptyString => false
  end.

(** The parser reads [print j] back when what follows is delimited
    and the fuel covers the nesting. *)
Definition reads_back (j : json) : Prop :=
  json_wf j = true →
  ∀ fuel rest, delimited rest = true → (json_cost j ≤ fuel)%nat →
  parse_value fuel (print j +:+ rest) = Some (j, rest).

(** The stack of [SerializeJSONProperty] holds distinct objects of the
    heap, and the fuel left covers the objects that are not on it. *)
Definition stack_ok (h : gmap loc object) (stack : list loc) (fuel : nat) : Prop :=
  NoDup stack ∧ (∀ l, l ∈ stack → is_Some (h !! l)) ∧
  (size h < length stack + fuel)%nat.

(** Every object on the stack is strictly larger than [j]. *)
Definition encloses (h : gmap loc object) (stack : list loc) (j : json) : Prop :=
  ∀ l j', l ∈ stack → deep_equal h (VRef l) j' = true →
          (json_cost j < json_cost j')%nat.

(** A value of a JavaScript program refers to an object of the heap,
    and so does every value held by an object of the heap. *)
Definition closed_val (h : gmap loc object) (v : val) : Prop :=
  match v with
  | VRef l => is_Some (h !! l)
  | _ => True
  end.

Definition closed_object (h : gmap loc object) (o : object) : Prop :=
  match o with
  | OObj props => Forall (λ p, closed_val h p.2) props
  | OArr elems => Forall (closed_val h) elems
  | OFun => True
  end.

Definition closed_heap (h : gmap loc object) : Prop :=
  ∀ l o, h !! l = Some o → closed_object h o.

(** ** The properties of the specification *)

(** The specification calls an input serializable when serializing it
    does not fail, that is, when [JSON.stringify] does not throw. *)
Definition serializable (h : gmap loc object) (R : val) : Prop :=
  ∃ o, JSON_stringify h R = Ret o.

(** The values an object holds. *)
Definition object_values (o : object) : list val :=
  match o with
  | OObj props => List.map snd props
  | OArr elems => elems
  | OFun => []
  end.

(** [reaches h v v']: [v'] is [v] itself, or the value of a property
    or an element of [v], at any depth. *)
Inductive reaches (h : gmap loc object) : val → val → Prop :=
  | reaches_here v : reaches h v v
  | reaches_inside l o v v' :
      h !! l = Some o → v ∈ object_values o → reaches h v v' →
      reaches h (VRef l) v'.

(** The values a JSON text does not keep: [undefined], a function and
    a symbol are left out of an object and written [null] in an array,
    [NaN] and the infinities are written [null], and the negative zero
    is written [0]. *)
Definition kept (h : gmap loc object) (v : val) : bool :=
  match v with
  | VUndefined | VSymbol _ => false
  | VNum (NInt _) | VNum (NDec _ _ _) => true
  | VNum _ => false
  | VRef l =>
      match h !! l with
      | Some OFun => false
      | _ => true
      end
  | VNull | VBool _ | VStr _ | VBigInt _ => true
  end.

(** [R] holds no value that a JSON text does not keep. *)
Definition lossless (h : gmap loc object) (R : val) : Prop :=
  ∀ v, reaches h R v → kept h v = true.

(** What holds of every value of a JavaScript program: the keys of an
    object are distinct, and a number that is not whole is named by
    its shortest decimal, [s * 10^e] with [e < 0] and [s] no multiple
    of ten. *)
Definition value_wf (h : gmap loc object) (v : val) : bool :=
  match v with
  | VNum (NDec _ s e) => (e <? 0)%Z && negb (Z.pos s mod 10 =? 0)%Z
  | VRef l =>
      match h !! l with
      | Some (OObj props) => bool_decide (NoDup (List.map fst props))
      | _ => true
      end
  | _ => true
  end.

Definition well_formed (h : gmap loc object) (R : val) : Prop :=
  ∀ v, reaches h R v → value_wf h v = true.

(** The test holds of every value held by an object of the heap. *)
Definition heap_all (f : val → bool) (h : gmap loc object) : bool :=
  forallb (λ lo, forallb f (object_values lo.2)) (map_to_list h).

(** The round-trip law at a record [R]: the save reports success and
    the value read next is a text that parses to a value equal to [R]. *)
Definition round_trip_law (w : world) (R : val) : Prop :=
  ∃ w' s j,
    UserRepositoryService.saveUser R w = (Ret true, w') ∧
    (UserRepositoryService.getAllUsers w').1 = Ret (VStr s) ∧
    JSON_parse s = Some j ∧
    deep_equal (heap w) R j = true.

(** A record with a property that holds [undefined], before and after
    it is saved. *)
Definition lossy_record : object :=
  OObj [("id", VNum (NInt 1)); ("nickname", VUndefined)].
Definition lossy_world : world := World {[ 1%positive := lossy_record ]} ∅.
Definition lossy_text : string := json_text "{'id':1}".
Definition lossy_saved : world :=
  World {[ 1%positive := lossy_record ]} {[ "LSuserDetails" := VStr lossy_text ]}.

(** A record with a price that is not whole, a list and an inner
    record: [{id: 7, price: 9.99, tags: ["new", null, true],
    size: {width: 1.5e-7, depth: 1e21}}]. *)
Definition priced_world : world :=
  World {[ 1%positive :=
             OObj [("id", VNum (NInt 7)); ("price", VNum (NDec false 999 (-2)));
                   ("tags", VRef 2%positive); ("size", VRef 3%positive)];
           2%positive := OArr [VStr "new"; VNull; VBool true];
           3%positive :=
             OObj [("width", VNum (NDec false 15 (-8))); ("depth", VNum (NInt (10 ^ 21)))] ]}
        ∅.

(** Records with a value that a JSON text does not keep. *)
Definition lossy_examples : list (world * val) :=
  [ (fresh_world, VNum NNaN);
    (fresh_world, VNum (NInfinity false));
    (fresh_world, VNum (NInfinity true));
    (fresh_world, VNum NNegZero);
    (fresh_world, VUndefined);
    (fresh_world, VSymbol "id");
    (World {[ 1%positive := OFun ]} ∅, VRef 1%positive);
    (World {[ 1%positive := OArr [VUndefined] ]} ∅, VRef 1%positive);
    (World {[ 1%positive := OObj [("f", VRef 2%positive)]; 2%positive := OFun ]} ∅,
     VRef 1%positive);
    (World {[ 1%positive := OObj [("s", VSymbol "id")] ]} ∅, VRef 1%positive);
    (World {[ 1%positive := OObj [("x", VNum NNaN)] ]} ∅, VRef 1%positive);
    (World {[ 1%positive := OArr [VNum NNegZero] ]} ∅, VRef 1%positive) ].

(** What the rest of the program can do to the repository and to the
    heap, one step at a time. *)
Inductive call : Type :=
  | CallSaveUser (userDetails : val)
  | CallGetAllUsers
  | Allocate (o : object).

Definition run_call (w : world) (c : call) : world :=
  match c with
  | CallSaveUser userDetails => (UserRepositoryService.saveUser userDetails w).2
  | CallGetAllUsers => (UserRepositoryService.getAllUsers w).2
  | Allocate o => (alloc o w).2
  end.

Definition run_calls (cs : list call) (w : world) : world :=
  fold_left run_call cs w.

(** The value [saveUser] hands to [setItem]. *)
Definition serialization (h : gmap loc object) (R : val) : option val :=
  match JSON_stringify h R with
  | Ret (Some s) => Some (VStr s)
  | Ret None => Some VUndefined
  | _ => None
  end.

Definition janeData_literal : object :=
  OObj [("id", VNum (NInt 2)); ("name", VStr "Jane")].

(** The scenario of the specification: the usage of main.ts, followed
    by a second save and a second read. *)
Record scenario_result : Type := ScenarioResult {
  first_record : val;
  first_save : bool;
  first_read : val;
  second_record : val;
  second_save : bool;
  second_read : val;
}.

Definition scenario : M scenario_result :=
  userData ← alloc userData_literal;
  saveResult ← UserController.saveUserData userController userData;
  allUsers ← UserController.getAllUserData userController;
  janeData ← alloc janeData_literal;
  saveResult2 ← UserController.saveUserData userController janeData;
  allUsers2 ← UserController.getAllUserData userController;
  mret (ScenarioResult userData saveResult allUsers janeData saveResult2 allUsers2).

Definition userData_text : string :=
  json_text "{'id':1,'name':'John Doe','email':'john@example.com'}".
Definition janeData_text : string := json_text "{'id':2,'name':'Jane'}".

(** The JSON term the first record of the scenario is built like. *)
Definition userData_json : json :=
  JObj [("id", JNum (NInt 1)); ("name", JStr "John Doe"); ("email", JStr "john@example.com")].

(** The state the scenario ends in. *)
Definition scenario_end : world :=
  World {[ 1%positive := userData_literal; 2%positive := janeData_literal ]}
        {[ "LSuserDetails" := VStr janeData_text ]}.


(** Both records of the scenario allocated, nothing saved yet. *)
Definition scenario_start : world :=
  World {[ 1%positive := userData_literal; 2%positive := janeData_literal ]} ∅.

(** An object that holds itself, [o.self = o], and a store with a
    record saved earlier. *)
Definition cyclic_world : world :=
  World {[ 1%positive := OObj [("self", VRef 1%positive)] ]}
        {[ "LSuserDetails" := VStr userData_text ]}.

(** The state after [saveUser(undefined)] from the start. *)
Definition undefined_saved : world :=
  World ∅ {[ "LSuserDetails" := VUndefined ]}.

(** The store keeps to the one key of the repository. *)
Definition one_key (w : world) : Prop :=
  dom (storage w) ⊆ ({[ "LSuserDetails" ]} : gset string).

(** ** Numbers compared *)

(** The value of a finite number, as a numerator and a denominator. *)
Definition number_fraction (n : number) : option (Z * positive) :=
  match n with
  | NInt z => Some (z, 1%positive)
  | NNegZero => Some (0, 1%positive)
  | NDec negative s e =>
      let m := if negative then Z.neg s else Z.pos s in
      Some (if (e <? 0)%Z then m else m * 10 ^ e,
            if (e <? 0)%Z then Z.to_pos (10 ^ (- e)) else 1%positive)
  | NNaN | NInfinity _ => None
  end.

(** The value of a finite number, as a rational. *)
Definition number_Q (n : number) : option Q :=
  match number_fraction n with
  | Some (x, d) => Some (Qmake x d)
  | None => None
  end.

(** [a <= b] and [a >= b] on numbers: false as soon as one side is
    [NaN]; an infinity is beyond every other number; two finite
    numbers compare as their values. *)
Definition number_leb (a b : number) : bool :=
  match a, b with
  | NNaN, _ | _, NNaN => false
  | NInfinity true, _ => true
  | _, NInfinity false => true
  | NInfinity false, _ | _, NInfinity true => false
  | _, _ =>
      match number_fraction a, number_fraction b with
      | Some (x, d), Some (y, d') => (x * Z.pos d' <=? y * Z.pos d)%Z
      | _, _ => false
      end
  end.

Definition number_geb (a b : number) : bool := number_leb b a.

(** ** Regular expressions

    The patterns of the sources are anchored at both ends and use
    character classes, sequence and [+] only, so [test] is membership
    of the whole string in the language of the pattern; it is decided
    by derivatives. *)
Inductive regex : Type :=
  | ReNone
  | ReEmpty
  | ReClass (accepts : ascii → bool)
  | ReSeq (r1 r2 : regex)
  | ReAlt (r1 r2 : regex)
  | ReStar (r : regex).

Definition RePlus (r : regex) : regex := ReSeq r (ReStar r).

Fixpoint nullable (r : regex) : bool :=
  match r with
  | ReNone => false
  | ReEmpty => true
  | ReClass _ => false
  | ReSeq r1 r2 => nullable r1 && nullable r2
  | ReAlt r1 r2 => nullable r1 || nullable r2
  | ReStar _ => true
  end.

Fixpoint derivative (c : ascii) (r : regex) : regex :=
  match r with
  | ReNone | ReEmpty => ReNone
  | ReClass accepts => if accepts c then ReEmpty else ReNone
  | ReSeq r1 r2 =>
      if nullable r1
      then ReAlt (ReSeq (derivative c r1) r2) (derivative c r2)
      else ReSeq (derivative c r1) r2
  | ReAlt r1 r2 => ReAlt (derivative c r1) (derivative c r2)
  | ReStar r' => ReSeq (derivative c r') (ReStar r')
  end.

(** [/^r$/.test(s)]. *)
Fixpoint RegExp_test (r : regex) (s : string) : bool :=
  match s with
  | EmptyString => nullable r
  | String c s' => RegExp_test (derivative c r) s'
  end.

(** The class [\s] on the code units of the model: tab, line feed,
    vertical tab, form feed, carriage return, space, no-break space. *)
Definition is_regex_space (c : ascii) : bool :=
  let n := N_of_ascii c in
  ((9 <=? n)%N && (n <=? 13)%N) || (n =? 32)%N || (n =? 160)%N.

(** The class [[^\s@]]. *)
Definition not_space_or_at (c : ascii) : bool :=
  negb (is_regex_space c) && negb (Ascii.eqb c "@").

(** [/^[^\s@]+@[^\s@]+\.[^\s@]+$/] *)
Definition emailRegex : regex :=
  ReSeq (RePlus (ReClass not_space_or_at))
    (ReSeq (ReClass (Ascii.eqb "@"))
       (ReSeq (RePlus (ReClass not_space_or_at))
          (ReSeq (ReClass (Ascii.eqb "."))
             (RePlus (ReClass not_space_or_at))))).

(** The language of a pattern. *)
Inductive matches : regex → string → Prop :=
  | matches_empty : matches ReEmpty ""
  | matches_class accepts c : accepts c = true → matches (ReClass accepts) (String c "")
  | matches_seq r1 r2 s1 s2 :
      matches r1 s1 → matches r2 s2 → matches (ReSeq r1 r2) (s1 +:+ s2)
  | matches_alt_l r1 r2 s : matches r1 s → matches (ReAlt r1 r2) s
  | matches_alt_r r1 r2 s : matches r2 s → matches (ReAlt r1 r2) s
  | matches_star_nil r : matches (ReStar r) ""
  | matches_star_cons r s1 s2 :
      matches r s1 → matches (ReStar r) s2 → matches (ReStar r) (s1 +:+ s2).

(** Every code unit of [s] is in the class. *)
Fixpoint all_chars (accepts : ascii → bool) (s : string) : bool :=
  match s with
  | EmptyString => true
  | String c s' => accepts c && all_chars accepts s'
  end.

(** ** Strings of the user filters *)

(** [String.prototype.toLowerCase] on the code units of the model:
    A-Z and the capital letters of Latin-1 (all of C0-DE but the
    multiplication sign D7) move up by 32. *)
Definition toLowerCase_char (c : ascii) : ascii :=
  let n := N_of_ascii c in
  if ((65 <=? n)%N && (n <=? 90)%N)
     || ((192 <=? n)%N && (n <=? 222)%N && negb (n =? 215)%N)
  then ascii_of_N (n + 32) else c.

Fixpoint toLowerCase (s : string) : string :=
  match s with
  | EmptyString => ""
  | String c s' => String (toLowerCase_char c) (toLowerCase s')
  end.

(** [s.includes(term)]. *)
Fixpoint includes (s term : string) : bool :=
  String.prefix term s ||
  match s with
  | EmptyString => false
  | String _ s' => includes s' term
  end.

(** ** The users of the higher-order examples
    (arrowfunctionExampleHigerOrderFUnc.ts)

    [lastLogin] is the optional [Date], as its time value. *)
Module User.
Record t : Type := Build {
  id : string;
  name : string;
  email : string;
  age : number;
  isActive : bool;
  lastLogin : option Z;
}.
End User.

Definition createAgeFilter (minAge maxAge : number) : User.t → bool :=
  λ user, number_geb (User.age user) minAge && number_leb (User.age user) maxAge.

Definition createActiveFilter : User.t → bool :=
  λ user, User.isActive user.

Definition createSearchFilter (searchTerm : string) : User.t → bool :=
  let term := toLowerCase searchTerm in
  λ user,
    includes (toLowerCase (User.name user)) term
    || includes (toLowerCase (User.email user)) term.

Definition createEmailValidation : User.t → bool :=
  λ user, RegExp_test emailRegex (User.email user).

(** A parameter left out takes its default value. *)
Definition createAgeValidation (minAge maxAge : option number) : User.t → bool :=
  let minAge := default (NInt 13) minAge in
  let maxAge := default (NInt 120) maxAge in
  λ user, number_geb (User.age user) minAge && number_leb (User.age user) maxAge.

(** [Array.prototype.findIndex], with [None] for [-1]. *)
Fixpoint findIndex {A : Type} (p : A → bool) (l : list A) : option nat :=
  match l with
  | [] => None
  | x :: l' => if p x then Some O else S <$> findIndex p l'
  end.

(** ** UserService (arrowfunctionExampleHigerOrderFUnc.ts)

    The callbacks handed to the service act on the world outside it,
    of some type [E], through which [console.log] writes as well; they
    return normally and do not call back into the service.  A
    validation, filter or confirmation callback answers a boolean and a
    transform callback a user. *)
Module UserService.
Section service.
Context {E : Type} (console_log : string → E → E).

Definition UserCallback : Type := User.t → E → E.

Record t : Type := Build {
  users : list User.t;
  eventCallbacks : gmap string (list UserCallback);
}.

Definition new : t := Build [] ∅.

Definition notifyEvent (event : string) (user : User.t) (this : t) (e : E) : E :=
  match eventCallbacks this !! event with
  | Some callbacks => fold_left (λ e' callback, callback user e') callbacks e
  | None => e
  end.

Definition addUser (user : User.t) (validationCallback : option (User.t → bool))
    (this : t) (e : E) : bool * t * E :=
  let rejected :=
    match validationCallback with
    | Some validate => negb (validate user)
    | None => false
    end in
  if rejected then
    (false, this, console_log ("User " +:+ User.name user +:+ " failed validation") e)
  else
    let this' := Build (users this ++ [user])%list (eventCallbacks this) in
    (true, this', notifyEvent "user-added" user this' e).

Definition getUsers (filterCallback : option (User.t → bool)) (this : t) : list User.t :=
  match filterCallback with
  | None => users this
  | Some keep => List.filter keep (users this)
  end.

Definition updateUser (userId : string) (transformCallback : User.t → User.t)
    (this : t) (e : E) : bool * t * E :=
  match findIndex (λ user, String.eqb (User.id user) userId) (users this) with
  | None => (false, this, e)
  | Some userIndex =>
      match users this !! userIndex with
      | Some user =>
          let user' := transformCallback user in
          let this' := Build (<[userIndex := user']> (users this)) (eventCallbacks this) in
          (true, this', notifyEvent "user-updated" user' this' e)
      | None => (true, this, e)
      end
  end.

Definition deleteUser (userId : string) (confirmationCallback : option (User.t → bool))
    (this : t) (e : E) : bool * t * E :=
  match findIndex (λ user, String.eqb (User.id user) userId) (users this) with
  | None => (false, this, e)
  | Some userIndex =>
      match users this !! userIndex with
      | Some user =>
          let cancelled :=
            match confirmationCallback with
            | Some confirm => negb (confirm user)
            | None => false
            end in
          if cancelled then
            (false, this,
             console_log ("Deletion of user " +:+ User.name user +:+ " was cancelled") e)
          else
            let this' := Build (delete userIndex (users this)) (eventCallbacks this) in
            (true, this', notifyEvent "user-deleted" user this' e)
      | None => (true, this, e)
      end
  end.

Definition processUsers (processCallback : UserCallback) (this : t) (e : E) : E :=
  fold_left (λ e' user, processCallback user e') (users this) e.

Definition onUserEvent (event : string) (callback : UserCallback) (this : t) : t :=
  let registered := default [] (eventCallbacks this !! event) in
  Build (users this) (<[event := (registered ++ [callback])%list]> (eventCallbacks this)).

End service.
End UserService.

(** ** memoize

    The closure [memoize] returns, with its private [cache] passed
    explicitly.  [args] is the array of the rest parameter, a new
    object of the heap; the wrapped function acts on the outside world
    and returns normally.  The text of an array is never [undefined]. *)
Definition stringify_args (h : gmap loc object) (args : list val) : outcome string :=
  let l := fresh (dom h) in
  match JSON_stringify (<[l := OArr args]> h) (VRef l) with
  | Ret (Some s) => Ret s
  | Ret None => Stuck
  | Throw e => Throw e
  | Stuck => Stuck
  end.

(** The key of the cache: the caller's generator, or the JSON text of
    the arguments. *)
Definition memoize_key (keyGenerator : option (list val → string))
    (h : gmap loc object) (args : list val) : outcome string :=
  match keyGenerator with
  | Some generate => Ret (generate args)
  | None => stringify_args h args
  end.

Definition memoize {E : Type} (console_log : string → E → E)
    (fn : list val → E → val * E) (keyGenerator : option (list val → string))
    (h : gmap loc object) (args : list val) (cache : gmap string val) (e : E)
    : outcome val * gmap string val * E :=
  match memoize_key keyGenerator h args with
  | Ret key =>
      match cache !! key with
      | Some result =>
          (Ret result, cache, console_log ("Cache hit for key: " +:+ key) e)
      | None =>
          let '(result, e') := fn args e in
          (Ret result, <[key := result]> cache,
           console_log ("Cache miss, computed result for key: " +:+ key) e')
      end
  | Throw err => (Throw err, cache, e)
  | Stuck => (Stuck, cache, e)
  end.

(** ** rateLimit

    The closure [rateLimit] returns, with its private array [calls]
    passed explicitly and the reading of [Date.now()] as the input
    [now].  The readings of the clock are whole milliseconds, and so is
    [timeWindow], which makes [now - timeWindow] exact; [maxCalls] is
    any number. *)
Fixpoint drop_expired (threshold : Z) (calls : list Z) : list Z :=
  match calls with
  | [] => []
  | first :: rest =>
      if (first <=? threshold)%Z then drop_expired threshold rest else calls
  end.

Definition rateLimit {E : Type} (console_log : string → E → E)
    (fn : list val → E → val * E) (maxCalls : number) (timeWindow : Z)
    (now : Z) (args : list val) (calls : list Z) (e : E) : val * list Z * E :=
  let calls := drop_expired (now - timeWindow) calls in
  if number_geb (NInt (Z.of_nat (length calls))) maxCalls then
    (VUndefined, calls, console_log "Rate limit exceeded, skipping call" e)
  else
    let '(result, e') := fn args e in
    (result, (calls ++ [now])%list, e').

(** A limited function called at each reading of the clock in turn. *)
Fixpoint rateLimit_run {E : Type} (console_log : string → E → E)
    (fn : list val → E → val * E) (maxCalls : number) (timeWindow : Z)
    (clock : list Z) (calls : list Z) (e : E) : list Z * E :=
  match clock with
  | [] => (calls, e)
  | now :: later =>
      let '(_, calls', e') := rateLimit console_log fn maxCalls timeWindow now [] calls e in
      rateLimit_run console_log fn maxCalls timeWindow later calls' e'
  end.

(** ** Dictionaries and ConfigManager (indexSignatures.ts)

    An object used as a dictionary: its own properties as a map, and
    [inherited], the properties it finds on [Object.prototype]. *)
Section dictionaries.
Context (inherited : gmap string val).

(** [dict[key]]. *)
Definition get_property (dict : gmap string val) (key : string) : val :=
  match dict !! key with
  | Some v => v
  | None => default VUndefined (inherited !! key)
  end.

(** [key in dict]. *)
Definition has_property (dict : gmap string val) (key : string) : bool :=
  bool_decide (is_Some (dict !! key)) || bool_decide (is_Some (inherited !! key)).

(** [{ ...initialData }]: a new object with the same own properties. *)
Definition createDictionary (initialData : gmap string val) : gmap string val :=
  initialData.

(** [{ ...dict, [key]: value }]: the computed key defines an own
    property of the new object, whatever the key. *)
Definition addToDictionary (dict : gmap string val) (key : string) (value : val)
    : gmap string val :=
  <[key := value]> dict.

Definition getFromDictionary (dict : gmap string val) (key : string) : val :=
  get_property dict key.

End dictionaries.

Module ConfigManager.
Section manager.
Context (inherited : gmap string val).

Record t : Type := Build { config : gmap string val }.

Definition new : t := Build ∅.

(** [this.config[key] = value].  The key ["__proto__"] reaches the
    accessor of [Object.prototype] instead of making a property; that
    assignment is outside the model. *)
Definition set (key : string) (value : val) (this : t) : option t :=
  if String.eqb key "__proto__" then None
  else Some (Build (<[key := value]> (config this))).

Definition get (key : string) (this : t) : val :=
  get_property inherited (config this) key.

Definition getAll (this : t) : gmap string val := config this.

Definition has (key : string) (this : t) : bool :=
  has_property inherited (config this) key.

Definition delete (key : string) (this : t) : bool * t :=
  if has key this then (true, Build (base.delete key (config this)))
  else (false, this).

End manager.
End ConfigManager.

(** ** Type guards (typeGuards.ts) *)

(** The [typeof] operator. *)
Definition typeof (h : gmap loc object) (v : val) : string :=
  match v with
  | VUndefined => "undefined"
  | VNull => "object"
  | VBool _ => "boolean"
  | VNum _ => "number"
  | VStr _ => "string"
  | VBigInt _ => "bigint"
  | VSymbol _ => "symbol"
  | VRef l =>
      match h !! l with
      | Some OFun => "function"
      | _ => "object"
      end
  end.

Definition isString (h : gmap loc object) (value : val) : bool :=
  String.eqb (typeof h value) "string".

(** [isNaN(value)], which the guard reaches for numbers only. *)
Definition isNaN (value : val) : bool :=
  match value with
  | VNum NNaN => true
  | _ => false
  end.

Definition isNumber (h : gmap loc object) (value : val) : bool :=
  String.eqb (typeof h value) "number" && negb (isNaN value).

(** [regex.test(value)], which the guard reaches for strings only. *)
Definition test_value (r : regex) (value : val) : bool :=
  match value with
  | VStr s => RegExp_test r s
  | _ => false
  end.

Definition isEmail (h : gmap loc object) (value : val) : bool :=
  isString h value && test_value emailRegex value.

(** [processUnknownValue], as the line it writes.  [toUpperCase] is
    [String.prototype.toUpperCase] and [double_text value] the text of
    [value * 2] in a template, both of the platform. *)
Definition processUnknownValue {E : Type} (console_log : string → E → E)
    (toUpperCase : string → string) (double_text : number → string)
    (h : gmap loc object) (value : val) (e : E) : E :=
  if isString h value then
    match value with
    | VStr s => console_log ("String: " +:+ toUpperCase s) e
    | _ => e
    end
  else if isNumber h value then
    match value with
    | VNum n => console_log ("Number: " +:+ double_text n) e
    | _ => e
    end
  else if isEmail h value then
    match value with
    | VStr s => console_log ("Email: " +:+ s +:+ " (valid email format)") e
    | _ => e
    end
  else console_log "Unknown type" e.

(** ** Sample data *)

(** A console that keeps the lines written, oldest first. *)
Definition transcript (line : string) (lines : list string) : list string :=
  (lines ++ [line])%list.

(** [sampleUsers] of the usage example. *)
Definition sampleUsers : list User.t :=
  [ User.Build "1" "john doe" "john@example.com" (NInt 25) true None;
    User.Build "2" "jane smith" "jane@example.com" (NInt 30) true None;
    User.Build "3" "bob wilson" "bob@example.com" (NInt 45) false None ].

(** [testUser] of the usage example. *)
Definition testUser : User.t :=
  User.Build "4" "alice brown" "alice@example.com" (NInt 28) true None.

(** The listener of the usage example for "user-deleted", without its
    pictogram. *)
Definition log_deleted : User.t → list string → list string :=
  λ user, transcript ("User deleted: " +:+ User.name user).

(** The service of the usage example once the sample users are in. *)
Definition sampleService : @UserService.t (list string) :=
  UserService.Build sampleUsers {[ "user-deleted" := [log_deleted] ]}.

(** The number 2.5. *)
Definition two_and_a_half : number := NDec false 25 (-1).

(** A wrapped function that returns its first argument. *)
Definition first_argument (args : list val) (lines : list string) : val * list string :=
  (default VUndefined (head args), transcript "called" lines).

(** What an object finds on [Object.prototype], as far as the examples
    go. *)
Definition sample_inherited : gmap string val :=
  {[ "toString" := VRef 1%positive ]}.

(** * Proofs *)

(** Induction on a JSON value with the hypothesis for every element
    and member. *)
Lemma json_nested_ind (P : json → Prop) :
  P JNull →
  (∀ b, P (JBool b)) →
  (∀ n, P (JNum n)) →
  (∀ s, P (JStr s)) →
  (∀ js, Forall P js → P (JArr js)) →
  (∀ ms, Forall (λ m, P m.2) ms → P (JObj ms)) →
  ∀ j, P j.
Proof.
  intros Hnull Hbool Hnum Hstr Harr Hobj.
  fix IH 1. intros [ | b | n | s | js | ms ].
  - exact Hnull.
  - apply Hbool.
  - apply Hnum.
  - apply Hstr.
  - apply Harr. induction js as [ | j js IHjs ]; constructor.
    + apply IH.
    + exact IHjs.
  - apply Hobj. induction ms as [ | [k j] ms IHms ]; constructor.
    + apply IH.
    + exact IHms.
Qed.

(** ** Strings *)

Lemma append_cons (c : ascii) (a b : string) : String c a +:+ b = String c (a +:+ b).
Proof. reflexivity. Qed.

Lemma append_nil_l (b : string) : "" +:+ b = b.
Proof. reflexivity. Qed.

Lemma append_nil_r (a : string) : a +:+ "" = a.
Proof. induction a as [ | x a IH ]; [ reflexivity | by rewrite append_cons, IH ]. Qed.

Lemma append_assoc (a b c : string) : (a +:+ b) +:+ c = a +:+ (b +:+ c).
Proof. induction a as [ | x a IH ]; [ reflexivity | by rewrite !append_cons, IH ]. Qed.

Lemma append_length (a b : string) :
  String.length (a +:+ b) = (String.length a + String.length b)%nat.
Proof.
  induction a as [ | x a IH ]; [ reflexivity | ].
  rewrite append_cons. simpl. by rewrite IH.
Qed.

Lemma expect_literal_append (p rest : string) : expect_literal p (p +:+ rest) = Some rest.
Proof.
  induction p as [ | a p IH ]; [ reflexivity | ].
  rewrite append_cons. simpl. by rewrite Ascii.eqb_refl.
Qed.

(** *** String literals *)

Lemma parse_string_body_escape_char (c : ascii) (r : string) :
  parse_string_body (escape_char c +:+ r) =
  match parse_string_body r with
  | Some (str, rest) => Some (String c str, rest)
  | None => None
  end.
Proof.
  destruct c as [[] [] [] [] [] [] [] []]; reflexivity.
Qed.

Lemma parse_string_body_escape_string (s rest : string) :
  parse_string_body (escape_string s +:+ String dquote rest) = Some (s, rest).
Proof.
  induction s as [ | c s IH ]; simpl.
  - reflexivity.
  - by rewrite append_assoc, parse_string_body_escape_char, IH.
Qed.

Lemma QuoteJSONString_append (s rest : string) :
  QuoteJSONString s +:+ rest = String dquote (escape_string s +:+ String dquote rest).
Proof. unfold QuoteJSONString. by rewrite append_cons, append_assoc. Qed.

(** ** Number literals *)

Lemma delimited_cases (rest : string) :
  delimited rest = true →
  rest = "" ∨ ∃ r, rest = String "," r ∨ rest = String "]" r ∨ rest = String "}" r.
Proof.
  destruct rest as [ | c r ]; [ by left | ]. simpl. intros H. right. exists r.
  apply orb_prop in H as [H | H]; [ apply orb_prop in H as [H | H] | ];
    apply Ascii.eqb_eq in H; subst; auto.
Qed.

Lemma skip_ws_delimited (rest : string) : delimited rest = true → skip_ws rest = rest.
Proof. intros H. destruct (delimited_cases rest H) as [-> | [r [-> | [-> | ->]]]]; reflexivity. Qed.

Lemma span_digits_delimited (rest : string) :
  delimited rest = true → span_digits rest = ("", rest).
Proof. intros H. destruct (delimited_cases rest H) as [-> | [r [-> | [-> | ->]]]]; reflexivity. Qed.

Lemma unorm_D0 (d d' : Decimal.uint) : Decimal.unorm d = Decimal.D0 d' → d' = Decimal.Nil.
Proof. induction d; simpl; intros H; try discriminate; [ by inversion H | auto ]. Qed.

Lemma to_uint_no_leading_zero (p : positive) (d : Decimal.uint) :
  Pos.to_uint p ≠ Decimal.D0 d.
Proof.
  intros H.
  assert (Hnorm : Decimal.unorm (Pos.to_uint p) = Pos.to_uint p).
  { rewrite <- (DecimalPos.Unsigned.to_of (Pos.to_uint p)).
    by rewrite DecimalPos.Unsigned.of_to. }
  rewrite H in Hnorm. apply unorm_D0 in Hnorm. subst d.
  by apply (DecimalPos.Unsigned.to_uint_nonzero p).
Qed.

(** ** Digits *)

Lemma span_digits_all (a rest : string) :
  all_chars is_digit a = true → digit_ahead rest = false →
  span_digits (a +:+ rest) = (a, rest).
Proof.
  intros Ha Hrest. induction a as [ | c a IH ].
  - rewrite append_nil_l. destruct rest as [ | c r ]; [ done | ].
    simpl in *. by rewrite Hrest.
  - simpl in Ha. apply andb_prop in Ha as [Hc Ha].
    rewrite append_cons. cbn [span_digits]. by rewrite Hc, IH.
Qed.

Lemma digit_ahead_delimited (rest : string) : delimited rest = true → digit_ahead rest = false.
Proof. intros H. destruct (delimited_cases rest H) as [-> | [r [-> | [-> | ->]]]]; reflexivity. Qed.

Lemma string_of_uint_digits (d : Decimal.uint) :
  all_chars is_digit (NilEmpty.string_of_uint d) = true.
Proof. induction d; simpl; try done. Qed.

Lemma digits_of_digits (p : positive) : all_chars is_digit (digits_of p) = true.
Proof. apply string_of_uint_digits. Qed.

Lemma digits_of_head (p : positive) :
  ∃ d r, digits_of p = String d r ∧ is_digit d = true ∧ Ascii.eqb d "0" = false.
Proof.
  unfold digits_of.
  pose proof (DecimalPos.Unsigned.to_uint_nonnil p) as Hnil.
  pose proof (to_uint_no_leading_zero p) as Hzero.
  destruct (Pos.to_uint p) as [ | d | d | d | d | d | d | d | d | d | d ];
    [ done | by destruct (Hzero d) | .. ]; eexists _, _; (split; [ reflexivity | done ]).
Qed.

Lemma digits_of_value (p : positive) :
  NilEmpty.uint_of_string (digits_of p) = Some (Pos.to_uint p).
Proof. apply NilEmpty.usu. Qed.

Lemma of_uint_to_uint (p : positive) : Z.of_uint (Pos.to_uint p) = Z.pos p.
Proof. unfold Z.of_uint. by rewrite DecimalPos.Unsigned.of_to. Qed.

Lemma zeros_digits (m : nat) : all_chars is_digit (zeros m) = true.
Proof. induction m; [ done | exact IHm ]. Qed.

Lemma zeros_length (m : nat) : String.length (zeros m) = m.
Proof. induction m; simpl; congruence. Qed.

Lemma all_chars_append (accepts : ascii → bool) (a b : string) :
  all_chars accepts (a +:+ b) = all_chars accepts a && all_chars accepts b.
Proof.
  induction a as [ | c a IH ]; [ done | ].
  rewrite append_cons. simpl. by rewrite IH, andb_assoc.
Qed.

Lemma string_take_drop (n : nat) (s : string) : string_take n s +:+ string_drop n s = s.
Proof.
  revert s. induction n as [ | n IH ]; intros [ | c s ]; try done.
  simpl. by rewrite append_cons, IH.
Qed.

Lemma string_drop_length (n : nat) (s : string) :
  String.length (string_drop n s) = (String.length s - n)%nat.
Proof. revert s. induction n as [ | n IH ]; intros [ | c s ]; simpl; try done. Qed.

Lemma take_drop_digits (n : nat) (s : string) :
  all_chars is_digit s = true →
  all_chars is_digit (string_take n s) = true ∧ all_chars is_digit (string_drop n s) = true.
Proof.
  intros Hs. rewrite <- (string_take_drop n s), all_chars_append in Hs.
  by apply andb_prop in Hs.
Qed.

Lemma zeros_value (m : nat) (s : string) (u : Decimal.uint) :
  NilEmpty.uint_of_string s = Some u →
  ∃ u', NilEmpty.uint_of_string (zeros m +:+ s) = Some u' ∧ N.of_uint u' = N.of_uint u.
Proof.
  intros Hs. induction m as [ | m (u' & Hu' & Hval) ]; [ by exists u | ].
  exists (Decimal.D0 u'). cbn [zeros]. rewrite append_cons.
  cbn [NilEmpty.uint_of_string]. rewrite Hu'. done.
Qed.

(** ** Zeros at the end *)

Lemma strip_zeros_value (fuel : nat) :
  ∀ p t s t', strip_zeros fuel p t = (s, t') →
              t <= t' ∧ Z.pos s * 10 ^ (t' - t) = Z.pos p.
Proof.
  induction fuel as [ | fuel IH ]; intros p t s t' H; simpl in H.
  - injection H as <- <-. rewrite Z.sub_diag. lia.
  - destruct (Z.eqb_spec (Z.pos p mod 10) 0) as [Hmod | Hmod].
    + destruct (Z.pos p / 10) as [ | q | q ] eqn:Hq.
      * injection H as <- <-. rewrite Z.sub_diag. lia.
      * apply IH in H as [Hle Hval]. split; [ lia | ].
        replace (t' - t) with (Z.succ (t' - (t + 1))) by lia.
        rewrite Z.pow_succ_r by lia.
        pose proof (Z.div_mod (Z.pos p) 10 ltac:(lia)) as Hdm.
        rewrite Hmod, Hq in Hdm. lia.
      * injection H as <- <-. rewrite Z.sub_diag. lia.
    + injection H as <- <-. rewrite Z.sub_diag. lia.
Qed.

Lemma shortest_value (p s : positive) (t : Z) :
  shortest p = (s, t) → 0 <= t ∧ Z.pos s * 10 ^ t = Z.pos p.
Proof.
  intros H. apply strip_zeros_value in H as [Hle Hval].
  by rewrite Z.sub_0_r in Hval.
Qed.

Lemma shortest_fixed (s : positive) : Z.pos s mod 10 ≠ 0 → shortest s = (s, 0).
Proof.
  intros Hmod. unfold shortest. destruct (Pos.size_nat s) eqn:Hsize; [ done | ].
  simpl. by destruct (Z.eqb_spec (Z.pos s mod 10) 0).
Qed.

(** ** Literals read back *)

Lemma parse_fraction_delimited (rest : string) :
  delimited rest = true → parse_fraction rest = Some ("", rest).
Proof. intros H. destruct (delimited_cases rest H) as [-> | [r [-> | [-> | ->]]]]; reflexivity. Qed.

Lemma parse_exponent_delimited (rest : string) :
  delimited rest = true → parse_exponent rest = Some (0, rest).
Proof. intros H. destruct (delimited_cases rest H) as [-> | [r [-> | [-> | ->]]]]; reflexivity. Qed.

Lemma parse_fraction_digits (ds rest : string) :
  all_chars is_digit ds = true → ds ≠ "" → digit_ahead rest = false →
  parse_fraction (String "." (ds +:+ rest)) = Some (ds, rest).
Proof.
  intros Hds Hne Hrest. cbn [parse_fraction].
  change (Ascii.eqb "." ".") with true. cbv iota.
  rewrite span_digits_all by done. by destruct ds.
Qed.

Lemma parse_exponent_written (x : Z) (rest : string) :
  digit_ahead rest = false →
  parse_exponent
    (String "e"
       (match x with
        | Z.neg q => String "-" (digits_of q)
        | Z.pos q => String "+" (digits_of q)
        | Z0 => "+0"
        end +:+ rest)) = Some (x, rest).
Proof.
  intros Hrest. cbn [parse_exponent].
  change (Ascii.eqb "e" "e" || Ascii.eqb "e" "E") with true. cbv iota.
  destruct x as [ | q | q ].
  - change ("+0" +:+ rest) with (String "+" ("0" +:+ rest)).
    cbv beta iota.
    change (Ascii.eqb "+" "-") with false. change (Ascii.eqb "+" "+") with true. cbv beta iota.
    by rewrite span_digits_all.
  - rewrite append_cons.
    cbv beta iota.
    change (Ascii.eqb "+" "-") with false. change (Ascii.eqb "+" "+") with true. cbv beta iota.
    rewrite span_digits_all by (done || apply digits_of_digits).
    destruct (digits_of_head q) as (d & r & Hq & _). rewrite Hq at 1. cbn [String.eqb].
    by rewrite digits_of_value, of_uint_to_uint.
  - rewrite append_cons.
    cbv beta iota. change (Ascii.eqb "-" "-") with true. cbv beta iota.
    rewrite span_digits_all by (done || apply digits_of_digits).
    destruct (digits_of_head q) as (d & r & Hq & _). rewrite Hq at 1. cbn [String.eqb].
    by rewrite digits_of_value, of_uint_to_uint.
Qed.

Lemma digit_not_minus (c : ascii) : is_digit c = true → Ascii.eqb c "-" = false.
Proof. destruct c as [[] [] [] [] [] [] [] []]; done. Qed.

Lemma parse_number_signed (negative : bool) (body : string) :
  digit_ahead body = true →
  parse_number ((if negative then "-" else "") +:+ body) = parse_unsigned negative body.
Proof.
  intros Hbody. destruct negative; [ reflexivity | ].
  rewrite append_nil_l. destruct body as [ | c r ]; [ done | ].
  simpl in Hbody. cbn [parse_number]. by rewrite digit_not_minus.
Qed.

Lemma number_of_literal_digits (negative : bool) (a b : string) (p : positive) (x : Z) :
  a +:+ b = digits_of p →
  number_of_literal negative a b x =
  Some (let '(s, t) := shortest p in
        let e := x - Z.of_nat (String.length b) + t in
        if (0 <=? e)%Z
        then NInt ((if negative then Z.neg s else Z.pos s) * 10 ^ e)
        else NDec negative s e).
Proof.
  intros Hab. unfold number_of_literal.
  rewrite Hab, digits_of_value. unfold N.of_uint.
  rewrite DecimalPos.Unsigned.of_to. by destruct (shortest p).
Qed.

Lemma plain_decimal_pos (p : positive) :
  NilZero.string_of_int (Z.to_int (Z.pos p)) = digits_of p.
Proof.
  pose proof (DecimalPos.Unsigned.to_uint_nonnil p) as Hnil.
  cbn [Z.to_int]. unfold NilZero.string_of_int, NilZero.string_of_uint, digits_of.
  by destruct (Pos.to_uint p).
Qed.

Lemma plain_decimal_neg (p : positive) :
  NilZero.string_of_int (Z.to_int (Z.neg p)) = String "-" (digits_of p).
Proof.
  pose proof (DecimalPos.Unsigned.to_uint_nonnil p) as Hnil.
  cbn [Z.to_int]. unfold NilZero.string_of_int, NilZero.string_of_uint, digits_of.
  by destruct (Pos.to_uint p).
Qed.

(** A whole number written with all its digits. *)
Lemma parse_unsigned_digits (negative : bool) (p : positive) (rest : string) :
  delimited rest = true →
  parse_unsigned negative (digits_of p +:+ rest)
  = Some (NInt (if negative then Z.neg p else Z.pos p), rest).
Proof.
  intros Hrest. unfold parse_unsigned.
  rewrite span_digits_all by (apply digits_of_digits || by apply digit_ahead_delimited).
  destruct (digits_of_head p) as (d & r & Hp & Hd & Hzero). rewrite Hp at 1.
  rewrite Hzero. cbn [andb].
  rewrite parse_fraction_delimited by done. cbn [mbind option_bind].
  rewrite parse_exponent_delimited by done. cbn [mbind option_bind].
  rewrite (number_of_literal_digits negative _ "" p 0) by apply append_nil_r.
  cbn [mbind option_bind]. destruct (shortest p) as [s t] eqn:Hst.
  apply shortest_value in Hst as [Ht Hval]. simpl String.length.
  replace (0 - Z.of_nat 0 + t) with t by lia.
  destruct (Z.leb_spec 0 t); [ | lia ].
  do 3 f_equal. destruct negative; lia.
Qed.

(** A number written with an exponent. *)
Lemma parse_unsigned_exponent_form (negative : bool) (s : positive) (x : Z) (rest : string) :
  delimited rest = true →
  parse_unsigned negative (exponent_form (digits_of s) x +:+ rest)
  = Some (let '(s', t) := shortest s in
          let e := x - (Z.of_nat (String.length (digits_of s)) - 1) + t in
          if (0 <=? e)%Z
          then NInt ((if negative then Z.neg s' else Z.pos s') * 10 ^ e)
          else NDec negative s' e, rest).
Proof.
  intros Hrest. apply digit_ahead_delimited in Hrest.
  pose proof (digits_of_digits s) as Hdigits.
  destruct (digits_of_head s) as (d & r & Hs & Hd & Hzero).
  assert (Hliteral : number_of_literal negative (String d "") r x =
            Some (let '(s', t) := shortest s in
                  let e := x - (Z.of_nat (String.length (digits_of s)) - 1) + t in
                  if (0 <=? e)%Z
                  then NInt ((if negative then Z.neg s' else Z.pos s') * 10 ^ e)
                  else NDec negative s' e)).
  { rewrite (number_of_literal_digits negative _ r s x) by by rewrite Hs.
    rewrite Hs. cbn [String.length].
    replace (Z.of_nat (S (String.length r)) - 1) with (Z.of_nat (String.length r)) by lia.
    done. }
  rewrite Hs in Hdigits |- * at 1. simpl in Hdigits. rewrite Hd in Hdigits. simpl in Hdigits.
  unfold exponent_form, parse_unsigned. rewrite append_cons. cbn [span_digits]. rewrite Hd.
  destruct (String.eqb_spec r "") as [-> | Hr].
  - rewrite append_nil_l, append_cons. cbn [span_digits].
    change (is_digit "e") with false. cbv iota.
    cbn [String.eqb negb andb]. rewrite andb_false_r.
    cbn [parse_fraction]. change (Ascii.eqb "e" ".") with false. cbv iota.
    cbn [mbind option_bind].
    rewrite parse_exponent_written by done. cbn [mbind option_bind].
    by rewrite Hliteral.
  - rewrite append_cons, append_cons. cbn [span_digits].
    change (is_digit ".") with false. cbv iota.
    cbn [String.eqb negb andb]. rewrite andb_false_r.
    rewrite append_assoc, append_cons.
    rewrite parse_fraction_digits by done. cbn [mbind option_bind].
    rewrite parse_exponent_written by done. cbn [mbind option_bind].
    by rewrite Hliteral.
Qed.

Lemma parse_number_whole (z : Z) (rest : string) :
  delimited rest = true →
  parse_number (Number_toString z +:+ rest) = Some (NInt z, rest).
Proof.
  intros Hrest. unfold Number_toString.
  destruct (Z.ltb_spec (Z.abs z) (10 ^ 21)) as [Hsmall | Hlarge].
  - destruct z as [ | p | p ].
    + destruct (delimited_cases rest Hrest) as [-> | [r [-> | [-> | ->]]]]; reflexivity.
    + rewrite plain_decimal_pos.
      rewrite <- (parse_unsigned_digits false p rest Hrest).
      apply (parse_number_signed false).
      destruct (digits_of_head p) as (d & r & -> & Hd & _). by rewrite append_cons.
    + rewrite plain_decimal_neg, append_cons.
      exact (parse_unsigned_digits true p rest Hrest).
  - assert (Hform : ∀ (negative : bool) (p : positive),
      parse_number
        ((let '(s, t) := shortest p in
          (if negative then "-" else "") +:+
          exponent_form (digits_of s) (Z.of_nat (String.length (digits_of s)) + t - 1))
         +:+ rest)
      = Some (NInt (if negative then Z.neg p else Z.pos p), rest)).
    { intros negative p. destruct (shortest p) as [s t] eqn:Hst.
      apply shortest_value in Hst as [Ht Hval].
      rewrite append_assoc, parse_number_signed.
      - rewrite parse_unsigned_exponent_form by done.
        destruct (shortest s) as [s' t'] eqn:Hst'.
        apply shortest_value in Hst' as [Ht' Hval'].
        cbv zeta.
        replace (Z.of_nat (String.length (digits_of s)) + t - 1
                 - (Z.of_nat (String.length (digits_of s)) - 1) + t') with (t' + t) by lia.
        destruct (Z.leb_spec 0 (t' + t)); [ | lia ].
        do 3 f_equal. rewrite Z.pow_add_r by lia. destruct negative; nia.
      - destruct (digits_of_head s) as (d & r & -> & Hd & _).
        unfold exponent_form. by rewrite append_cons. }
    destruct z as [ | p | p ]; [ done | exact (Hform false p) | exact (Hform true p) ].
Qed.

Lemma parse_number_fraction (negative : bool) (s : positive) (e : Z) (rest : string) :
  e < 0 → Z.pos s mod 10 ≠ 0 → delimited rest = true →
  parse_number (Fraction_toString negative s e +:+ rest) = Some (NDec negative s e, rest).
Proof.
  intros He Hs Hrest. unfold Fraction_toString.
  pose proof (digits_of_digits s) as Hdigits.
  destruct (digits_of_head s) as (d & r & Hds & Hd & Hzero).
  pose proof (shortest_fixed s Hs) as Hshort.
  set (k := String.length (digits_of s)) in *.
  assert (Hk : (0 < k)%nat) by (subst k; rewrite Hds; simpl; lia).
  set (n := Z.of_nat k + e).
  rewrite append_assoc.
  destruct ((0 <? n)%Z && (n <=? 21)%Z) eqn:Hpoint;
    [ apply andb_prop in Hpoint as [Hn%Z.ltb_lt _]
    | destruct ((-6 <? n)%Z && (n <=? 0)%Z) eqn:Hzeros;
      [ apply andb_prop in Hzeros as [_ Hn%Z.leb_le] | ] ].
  - (* the point inside the digits *)
    destruct (take_drop_digits (Z.to_nat n) (digits_of s) Hdigits) as [Htake Hdrop].
    assert (Hlen : String.length (string_drop (Z.to_nat n) (digits_of s)) = Z.to_nat (- e)).
    { rewrite string_drop_length. fold k. lia. }
    assert (Hhead : ∃ r', string_take (Z.to_nat n) (digits_of s) = String d r').
    { destruct (Z.to_nat n) as [ | m ] eqn:Hm; [ lia | ]. rewrite Hds. simpl. eauto. }
    destruct Hhead as [r' Hhead].
    rewrite parse_number_signed by (by rewrite Hhead, append_cons).
    unfold parse_unsigned. rewrite append_assoc, append_cons.
    rewrite span_digits_all by done.
    rewrite Hhead at 1. rewrite Hzero. cbn [andb].
    rewrite parse_fraction_digits; [ | done | | by apply digit_ahead_delimited ].
    2:{ intros Hnil. rewrite Hnil in Hlen. simpl in Hlen. lia. }
    cbn [mbind option_bind]. rewrite parse_exponent_delimited by done.
    cbn [mbind option_bind].
    rewrite (number_of_literal_digits negative _ _ s 0) by apply string_take_drop.
    rewrite Hshort, Hlen. cbv zeta.
    replace (0 - Z.of_nat (Z.to_nat (- e)) + 0) with e by lia.
    destruct (Z.leb_spec 0 e); [ lia | done ].
  - (* zeros between the point and the digits *)
    rewrite parse_number_signed by done.
    unfold parse_unsigned. rewrite !append_cons. cbn [span_digits].
    change (is_digit "0") with true. change (is_digit ".") with false. cbv iota.
    cbn [String.eqb negb andb]. rewrite andb_false_r.
    rewrite parse_fraction_digits; [ | | | by apply digit_ahead_delimited ].
    2:{ by rewrite all_chars_append, zeros_digits, Hdigits. }
    2:{ intros Hnil. apply (f_equal String.length) in Hnil.
        rewrite append_length in Hnil. fold k in Hnil. simpl in Hnil. lia. }
    cbn [mbind option_bind]. rewrite parse_exponent_delimited by done.
    cbn [mbind option_bind].
    unfold number_of_literal.
    destruct (zeros_value (S (Z.to_nat (- n))) (digits_of s) _ (digits_of_value s))
      as (u' & Hu' & Hval).
    cbn [zeros] in Hu'. rewrite append_cons in Hu'.
    rewrite append_cons, append_nil_l, Hu', Hval.
    unfold N.of_uint. rewrite DecimalPos.Unsigned.of_to.
    rewrite Hshort, append_length, zeros_length. fold k. cbv zeta.
    replace (0 - Z.of_nat (Z.to_nat (- n) + k) + 0) with e by lia.
    destruct (Z.leb_spec 0 e); [ lia | done ].
  - (* an exponent *)
    rewrite parse_number_signed
      by (rewrite Hds; unfold exponent_form; by rewrite append_cons).
    rewrite parse_unsigned_exponent_form by done.
    rewrite Hshort. fold k. cbv zeta.
    replace (n - 1 - (Z.of_nat k - 1) + 0) with e by lia.
    destruct (Z.leb_spec 0 e); [ lia | done ].
Qed.

(** The literal [Number::toString] writes reads back as the number. *)
Lemma parse_number_print (n : number) (rest : string) :
  json_number n = true → delimited rest = true →
  parse_number (SerializeNumber n +:+ rest) = Some (n, rest).
Proof.
  destruct n as [ z | | neg | | neg s e ]; try done; intros Hn Hrest.
  - by apply parse_number_whole.
  - simpl in Hn. apply andb_prop in Hn as [He Hs].
    apply Z.ltb_lt in He. apply negb_true_iff, Z.eqb_neq in Hs.
    by apply parse_number_fraction.
Qed.

Lemma SerializeNumber_head (n : number) :
  ∃ c r, SerializeNumber n = String c r ∧ (is_digit c || Ascii.eqb c "-" || Ascii.eqb c "n") = true.
Proof.
  assert (Hsigned : ∀ (negative : bool) body,
            digit_ahead body = true →
            ∃ c r, (if negative then "-" else "") +:+ body = String c r ∧
                   (is_digit c || Ascii.eqb c "-" || Ascii.eqb c "n") = true).
  { intros negative body Hbody. destruct negative; [ by eexists _, _ | ].
    destruct body as [ | c r ]; [ done | ]. simpl in Hbody.
    exists c, r. by rewrite Hbody. }
  assert (Hexp : ∀ s x, digit_ahead (exponent_form (digits_of s) x) = true).
  { intros s x. destruct (digits_of_head s) as (d & r & -> & Hd & _). done. }
  destruct n as [ z | | neg | | neg s e ]; try (by eexists _, _).
  - cbn [SerializeNumber]. unfold Number_toString.
    destruct (Z.abs z <? 10 ^ 21)%Z.
    + destruct z as [ | p | p ]; [ by eexists _, _ | | ].
      * rewrite plain_decimal_pos. destruct (digits_of_head p) as (d & r & -> & Hd & _).
        exists d, r. by rewrite Hd.
      * rewrite plain_decimal_neg. by eexists _, _.
    + destruct z as [ | p | p ]; [ by eexists _, _ | | ];
        destruct (shortest p) as [s t]; [ apply (Hsigned false) | apply (Hsigned true) ];
        apply Hexp.
  - cbn [SerializeNumber]. unfold Fraction_toString. apply Hsigned.
    destruct (digits_of_head s) as (d & r & Hds & Hd & _).
    destruct ((0 <? Z.of_nat (String.length (digits_of s)) + e)%Z && _) eqn:Hpoint;
      [ apply andb_prop in Hpoint as [Hn%Z.ltb_lt _]
      | destruct ((-6 <? _)%Z && _); [ done | apply Hexp ] ].
    destruct (Z.to_nat _) as [ | m ] eqn:Hm; [ lia | ].
    rewrite Hds. simpl. done.
Qed.

Lemma strip_zeros_done (fuel : nat) :
  ∀ p t s t', (Pos.size_nat p ≤ fuel)%nat → strip_zeros fuel p t = (s, t') →
              Z.pos s mod 10 ≠ 0.
Proof.
  induction fuel as [ | fuel IH ]; intros p t s t' Hfuel H.
  - destruct p; simpl in Hfuel; lia.
  - simpl in H. destruct (Z.eqb_spec (Z.pos p mod 10) 0) as [Hmod | Hmod].
    + destruct (Z.pos p / 10) as [ | q | q ] eqn:Hq.
      * pose proof (Z.div_mod (Z.pos p) 10 ltac:(lia)). lia.
      * apply IH in H; [ done | ].
        pose proof (Z.div_mod (Z.pos p) 10 ltac:(lia)) as Hdm. rewrite Hmod, Hq in Hdm.
        assert (Hlt : (q~0 < p)%positive) by lia.
        apply Pos.size_nat_monotone in Hlt. simpl in Hlt. lia.
      * pose proof (Z.div_pos (Z.pos p) 10 ltac:(lia) ltac:(lia)). lia.
    + by injection H as <- <-.
Qed.

Lemma shortest_not_multiple (p s : positive) (t : Z) :
  shortest p = (s, t) → Z.pos s mod 10 ≠ 0.
Proof. apply strip_zeros_done. lia. Qed.

(** ** Reading back a printed value *)

Ltac char_test t :=
  let b := eval vm_compute in t in
  match b with
  | true => change t with true
  | false => change t with false
  end.

(** Unfolds the parser on the characters that are known. *)
Ltac run_parser :=
  repeat (progress (
    cbn [parse_value parse_elements parse_members skip_ws mbind option_bind
         orb andb fst snd];
    repeat match goal with
    | |- context [is_ws ?c] => char_test (is_ws c)
    | |- context [is_digit ?c] => char_test (is_digit c)
    | |- context [Ascii.eqb ?a ?b] => char_test (Ascii.eqb a b)
    end)).

Lemma print_head (j : json) :
  ∃ c r, print j = String c r ∧ is_ws c = false ∧
         Ascii.eqb c "]" = false ∧ Ascii.eqb c "}" = false.
Proof.
  destruct j as [ | [] | n | s | js | ms ]; try (by eexists _, _).
  cbn [print]. destruct (SerializeNumber_head n) as (c & r & -> & Hc).
  exists c, r. repeat split;
    destruct c as [[] [] [] [] [] [] [] []]; done.
Qed.

Lemma concat_cons (sep x : string) (xs : list string) :
  xs ≠ [] → String.concat sep (x :: xs) = x +:+ sep +:+ String.concat sep xs.
Proof. by destruct xs. Qed.

Lemma CreateDataProperty_fresh (o : list (string * json)) (m : string * json) :
  m.1 ∉ List.map fst o → CreateDataProperty o m = (o ++ [m])%list.
Proof.
  induction o as [ | [k j] o IH ]; simpl; [ done | ].
  intros Hnotin. apply not_elem_of_cons in Hnotin as [Hne Hnotin].
  destruct (String.eqb_spec k m.1) as [-> | _]; [ done | ].
  by rewrite IH.
Qed.

Lemma fold_CreateDataProperty (ms acc : list (string * json)) :
  NoDup (List.map fst (acc ++ ms)%list) →
  fold_left CreateDataProperty ms acc = (acc ++ ms)%list.
Proof.
  revert acc. induction ms as [ | m ms IH ]; intros acc Hnodup; simpl.
  - by rewrite app_nil_r.
  - rewrite CreateDataProperty_fresh.
    + rewrite IH; [ by rewrite <- app_assoc | ]. by rewrite <- app_assoc.
    + rewrite map_app in Hnodup. apply NoDup_app in Hnodup as (_ & Hdisj & _).
      intros Hin. apply (Hdisj _ Hin). simpl. left.
Qed.

Lemma json_cost_pos (j : json) : (0 < json_cost j)%nat.
Proof. destruct j; simpl; lia. Qed.

Section parse_print.

Lemma parse_elements_print (js : list json) :
  Forall reads_back js → forallb json_wf js = true → js ≠ [] →
  ∀ fuel rest, delimited rest = true →
  (list_sum (List.map (λ j', S (json_cost j')) js) ≤ fuel)%nat →
  parse_elements fuel (String.concat "," (List.map print js) +:+ String "]" rest)
  = Some (js, rest).
Proof.
  induction 1 as [ | j js Hj Hjs IH ]; [ done | ].
  intros Hwf _ fuel rest Hrest Hfuel. simpl in Hwf, Hfuel.
  apply andb_prop in Hwf as [Hwfj Hwfjs].
  destruct fuel as [ | fuel ]; [ lia | ].
  destruct js as [ | j2 js ].
  - cbn [List.map String.concat parse_elements].
    rewrite (Hj Hwfj fuel (String "]" rest)); [ | done | simpl in *; lia ].
    by run_parser.
  - rewrite List.map_cons, concat_cons by done.
    rewrite !append_assoc. cbn [parse_elements].
    rewrite (Hj Hwfj fuel); [ | done | lia ].
    rewrite append_cons, append_nil_l. run_parser.
    rewrite IH; [ done | done | done | done | lia ].
Qed.

Lemma parse_members_print (ms : list (string * json)) :
  Forall (λ m, reads_back m.2) ms → forallb (λ m, json_wf m.2) ms = true → ms ≠ [] →
  ∀ fuel rest, delimited rest = true →
  (list_sum (List.map (λ m, S (json_cost m.2)) ms) ≤ fuel)%nat →
  parse_members fuel
    (String.concat "," (List.map (print_member print) ms) +:+ String "}" rest)
  = Some (ms, rest).
Proof.
  induction 1 as [ | [k j] ms Hj Hms IH ]; [ done | ].
  intros Hwf _ fuel rest Hrest Hfuel. simpl in Hwf, Hfuel, Hj.
  apply andb_prop in Hwf as [Hwfj Hwfms].
  destruct fuel as [ | fuel ]; [ lia | ].
  assert (Hmember : ∀ tail, delimited tail = true →
    parse_members (S fuel) (print_member print (k, j) +:+ tail) =
    match skip_ws tail with
    | EmptyString => None
    | String c3 r4 =>
        if Ascii.eqb c3 ","
        then '(ms', rest') ← parse_members fuel r4; Some ((k, j) :: ms', rest')
        else if Ascii.eqb c3 "}" then Some ([(k, j)], r4) else None
    end).
  { intros tail Htail. unfold print_member. cbn [fst snd].
    rewrite append_assoc, QuoteJSONString_append.
    run_parser. rewrite parse_string_body_escape_string.
    rewrite append_assoc, append_cons, append_nil_l.
    run_parser. rewrite (Hj Hwfj fuel tail); [ done | done | lia ]. }
  destruct ms as [ | m2 ms ].
  - cbn [List.map String.concat]. rewrite Hmember by done. by run_parser.
  - rewrite List.map_cons, concat_cons by done.
    rewrite !append_assoc, append_cons, append_nil_l.
    rewrite Hmember by done. run_parser.
    rewrite IH; [ done | done | done | done | lia ].
Qed.

Theorem parse_value_print (j : json) : reads_back j.
Proof.
  induction j as [ | b | n | s | js IH | ms IH ] using json_nested_ind;
    intros Hwf fuel rest Hrest Hfuel;
    (destruct fuel as [ | fuel ]; [ simpl in Hfuel; lia | ]).
  - reflexivity.
  - destruct b; reflexivity.
  - cbn [print json_wf] in *.
    destruct (print_head (JNum n)) as (c & r & Hn & Hws & _). cbn [print] in Hn.
    pose proof (parse_number_print n rest Hwf Hrest) as Hparse.
    assert (Hc : (is_digit c || Ascii.eqb c "-") = true).
    { destruct (SerializeNumber_head n) as (c' & r' & Hn' & Hc').
      rewrite Hn in Hn'. injection Hn' as <- <-.
      destruct (Ascii.eqb_spec c "n") as [-> | _]; [ | by rewrite orb_false_r in Hc' ].
      rewrite Hn in Hparse. by destruct n. }
    rewrite Hn, append_cons in *. cbn [parse_value skip_ws].
    rewrite Hws, Hc, Hparse. reflexivity.
  - cbn [print]. rewrite QuoteJSONString_append.
    run_parser. by rewrite parse_string_body_escape_string.
  - cbn [print json_wf json_cost] in *. unfold wrap.
    destruct js as [ | j1 js ]; [ reflexivity | ].
    rewrite !append_assoc, !append_cons, !append_nil_l.
    run_parser.
    destruct (print_head j1) as (c & r & Hhead & Hws & Hclose & _).
    rewrite List.map_cons.
    assert (Hstart : ∃ r', String.concat "," (print j1 :: List.map print js) +:+ String "]" rest = String c r').
    { destruct js; simpl; rewrite Hhead; eauto. }
    destruct Hstart as [r' Hstart]. rewrite Hstart. cbn [skip_ws]. rewrite Hws, Hclose.
    rewrite <- Hstart, <- List.map_cons.
    rewrite parse_elements_print; [ done | done | done | done | done | lia ].
  - cbn [print json_wf json_cost] in *. unfold wrap.
    apply andb_prop in Hwf as [Hnodup Hwf]. apply bool_decide_eq_true in Hnodup.
    destruct ms as [ | m1 ms ]; [ reflexivity | ].
    rewrite !append_assoc, !append_cons, !append_nil_l.
    run_parser.
    rewrite List.map_cons.
    assert (Hstart : ∃ r', String.concat "," (print_member print m1 :: List.map (print_member print) ms) +:+ String "}" rest = String dquote r').
    { destruct ms; simpl; eauto. }
    destruct Hstart as [r' Hstart]. rewrite Hstart. run_parser.
    rewrite <- Hstart, <- List.map_cons.
    rewrite parse_members_print; [ | done | done | done | done | lia ].
    cbn [mbind option_bind]. rewrite fold_CreateDataProperty; done.
Qed.

End parse_print.

Lemma QuoteJSONString_length (s : string) : (2 ≤ String.length (QuoteJSONString s))%nat.
Proof. unfold QuoteJSONString. simpl. rewrite append_length. simpl. lia. Qed.

Lemma wrap_length (opening closing : string) (parts : list string) :
  String.length (wrap opening closing parts) =
  (String.length opening + String.length (String.concat "," parts)
   + String.length closing)%nat.
Proof. unfold wrap. rewrite !append_length. lia. Qed.

Lemma concat_length_bound {A : Type} (f : A → string) (cost : A → nat) (xs : list A) :
  Forall (λ x, (cost x ≤ String.length (f x))%nat) xs →
  (list_sum (List.map (λ x, S (cost x)) xs)
   ≤ S (String.length (String.concat "," (List.map f xs))))%nat.
Proof.
  induction 1 as [ | x xs Hx Hxs IH ]; [ simpl; lia | ].
  destruct xs as [ | y xs ].
  - simpl. lia.
  - change (List.map f (x :: y :: xs)) with (f x :: List.map f (y :: xs)).
    rewrite concat_cons by done.
    rewrite !append_length. simpl in *. lia.
Qed.

Lemma json_cost_length (j : json) : (json_cost j ≤ String.length (print j))%nat.
Proof.
  induction j as [ | b | n | s | js IH | ms IH ] using json_nested_ind.
  - simpl. lia.
  - destruct b; simpl; lia.
  - cbn [print json_cost]. destruct (SerializeNumber_head n) as (c & r & -> & _). simpl. lia.
  - cbn [print json_cost]. pose proof (QuoteJSONString_length s). lia.
  - cbn [print json_cost]. rewrite wrap_length.
    pose proof (concat_length_bound print json_cost js IH). simpl. lia.
  - cbn [print json_cost]. rewrite wrap_length.
    pose proof (concat_length_bound (print_member print) (λ m, json_cost m.2) ms) as H.
    simpl. cut (Forall (λ m, (json_cost m.2 ≤ String.length (print_member print m))%nat) ms).
    { intros HF. specialize (H HF). lia. }
    eapply Forall_impl; [ exact IH | ]. intros [k j] Hj. unfold print_member.
    rewrite !append_length. simpl in *. lia.
Qed.

(** [JSON.parse] reads back the text of every well-formed value. *)
Theorem JSON_parse_print (j : json) : json_wf j = true → JSON_parse (print j) = Some j.
Proof.
  intros Hwf. unfold JSON_parse.
  rewrite <- (append_nil_r (print j)) at 2.
  rewrite parse_value_print; [ done | done | done | ].
  pose proof (json_cost_length j). lia.
Qed.

(** ** Values built like a JSON term *)

Lemma deep_equal_arr (h : gmap loc object) (v : val) (js : list json) :
  deep_equal h v (JArr js) = true ↔
  ∃ l elems, v = VRef l ∧ h !! l = Some (OArr elems) ∧
             Forall2 (λ v' j', deep_equal h v' j' = true) elems js.
Proof.
  split.
  - destruct v as [ | | | | | | | l ]; try done. cbn [deep_equal].
    destruct (h !! l) as [ [ props | elems | ] | ] eqn:Hl; try done.
    intros H. exists l, elems. split; [ done | split; [ done | ] ].
    clear Hl. revert elems H. induction js as [ | j js IH ]; intros [ | e elems ] H;
      try done; try (by constructor).
    apply andb_prop in H as [Hj Hjs]. constructor; auto.
  - intros (l & elems & -> & Hl & HF). cbn [deep_equal]. rewrite Hl. clear Hl.
    induction HF as [ | e j elems js Hj _ IH ]; [ done | ].
    cbn. rewrite Hj. exact IH.
Qed.

Lemma deep_equal_obj (h : gmap loc object) (v : val) (ms : list (string * json)) :
  deep_equal h v (JObj ms) = true ↔
  ∃ l props, v = VRef l ∧ h !! l = Some (OObj props) ∧
             Forall2 (λ p m, p.1 = m.1 ∧ deep_equal h p.2 m.2 = true) props ms.
Proof.
  split.
  - destruct v as [ | | | | | | | l ]; try done. cbn [deep_equal].
    destruct (h !! l) as [ [ props | elems | ] | ] eqn:Hl; try done.
    intros H. exists l, props. split; [ done | split; [ done | ] ].
    clear Hl. revert props H. induction ms as [ | m ms IH ]; intros [ | p props ] H;
      try done; try (by constructor).
    apply andb_prop in H as [H Hms]. apply andb_prop in H as [Hk Hj].
    apply String.eqb_eq in Hk. constructor; auto.
  - intros (l & props & -> & Hl & HF). cbn [deep_equal]. rewrite Hl. clear Hl.
    induction HF as [ | p m props ms [Hk Hj] _ IH ]; [ done | ].
    cbn. rewrite Hk, String.eqb_refl, Hj. exact IH.
Qed.

Lemma deep_equal_functional (h : gmap loc object) (j1 : json) :
  ∀ v j2, deep_equal h v j1 = true → deep_equal h v j2 = true → j1 = j2.
Proof.
  induction j1 as [ | b | n | s | js IH | ms IH ] using json_nested_ind; intros v j2 H1 H2.
  - destruct v; try done. by destruct j2.
  - destruct v; try done. destruct j2; try done. simpl in *.
    apply Bool.eqb_prop in H1, H2. congruence.
  - destruct v; try done. destruct j2; try done. simpl in *.
    apply bool_decide_eq_true in H1, H2. congruence.
  - destruct v; try done. destruct j2; try done. simpl in *.
    apply String.eqb_eq in H1, H2. congruence.
  - apply deep_equal_arr in H1 as (l & elems & -> & Hl & HF).
    destruct j2 as [ | | | | js2 | ms2 ]; try done.
    + apply deep_equal_arr in H2 as (l' & elems' & [= <-] & Hl' & HF').
      rewrite Hl in Hl'. injection Hl' as <-. f_equal.
      clear Hl. revert js2 HF'. induction HF as [ | e j elems js Hj HF IHF ];
        intros js2 HF'; inversion HF'; subst; [ done | ].
      apply Forall_cons in IH as [IHj IHjs]. f_equal; eauto.
    + apply deep_equal_obj in H2 as (l' & props & [= <-] & Hl' & _). congruence.
  - apply deep_equal_obj in H1 as (l & props & -> & Hl & HF).
    destruct j2 as [ | | | | js2 | ms2 ]; try done.
    + apply deep_equal_arr in H2 as (l' & elems & [= <-] & Hl' & _). congruence.
    + apply deep_equal_obj in H2 as (l' & props' & [= <-] & Hl' & HF').
      rewrite Hl in Hl'. injection Hl' as <-. f_equal.
      clear Hl. revert ms2 HF'. induction HF as [ | p m props ms [Hk Hj] HF IHF ];
        intros ms2 HF'; inversion HF' as [ | ? m2 ? ms2' [Hk2 Hj2] ]; subst; [ done | ].
      apply Forall_cons in IH as [IHj IHjs]. f_equal; [ | eauto ].
      destruct m as [k j], m2 as [k2 j2']. simpl in *. f_equal; [ congruence | eauto ].
Qed.

Lemma Forall2_with_Forall {A B : Type} (P R : A → B → Prop) (Q : B → Prop)
    (xs : list A) (ys : list B) :
  Forall2 P xs ys → Forall Q ys →
  (∀ x y, y ∈ ys → P x y → Q y → R x y) →
  Forall2 R xs ys.
Proof.
  induction 1 as [ | x y xs ys Hxy HF IH ]; intros HQ Himpl; [ constructor | ].
  apply Forall_cons in HQ as [Hy HQ]. constructor.
  - apply Himpl; [ left | done | done ].
  - apply IH; [ done | ]. intros x' y' Hin. apply Himpl. by right.
Qed.

Lemma list_sum_elem {A : Type} (f : A → nat) (x : A) (xs : list A) :
  x ∈ xs → (f x ≤ list_sum (List.map f xs))%nat.
Proof. induction 1; simpl; lia. Qed.

Lemma json_cost_elem (j : json) (js : list json) :
  j ∈ js → (json_cost j < json_cost (JArr js))%nat.
Proof.
  intros Hin. simpl.
  pose proof (list_sum_elem (λ j', S (json_cost j')) j js Hin). simpl in *. lia.
Qed.

Lemma json_cost_member (m : string * json) (ms : list (string * json)) :
  m ∈ ms → (json_cost m.2 < json_cost (JObj ms))%nat.
Proof.
  intros Hin. simpl.
  pose proof (list_sum_elem (λ m', S (json_cost m'.2)) m ms Hin). simpl in *. lia.
Qed.

Lemma SerializeJSONArray_elements_print
    (ser : val → outcome (option string)) (elems : list val) (js : list json) :
  Forall2 (λ v j, ser v = Ret (Some (print j))) elems js →
  SerializeJSONArray_elements ser elems = Ret (List.map print js).
Proof.
  induction 1 as [ | v j elems js Hv _ IH ]; [ done | ].
  simpl. by rewrite Hv, IH.
Qed.

Lemma SerializeJSONObject_members_print
    (ser : val → outcome (option string))
    (props : list (string * val)) (ms : list (string * json)) :
  Forall2 (λ p m, p.1 = m.1 ∧ ser p.2 = Ret (Some (print m.2))) props ms →
  SerializeJSONObject_members ser props = Ret (List.map (print_member print) ms).
Proof.
  induction 1 as [ | [k v] [k' j] props ms [Hk Hv] _ IH ]; [ done | ].
  simpl in *. subst k'. by rewrite Hv, IH.
Qed.

Section stringify_plain.

Variable h : gmap loc object.

Lemma stack_bound (stack : list loc) :
  NoDup stack → (∀ l, l ∈ stack → is_Some (h !! l)) → (length stack ≤ size h)%nat.
Proof.
  intros Hnodup Hdom.
  rewrite <- (size_list_to_set (C := gset loc) stack Hnodup), <- size_dom.
  apply subseteq_size. intros l Hl. apply elem_of_list_to_set in Hl.
  by apply elem_of_dom, Hdom.
Qed.

Lemma enter_object (stack : list loc) (fuel : nat) (l : loc) (o : object) (j : json) :
  stack_ok h stack fuel → encloses h stack j →
  h !! l = Some o → deep_equal h (VRef l) j = true →
  (l ∉ stack) ∧ ∃ fuel', fuel = S fuel' ∧ stack_ok h (l :: stack) fuel' ∧
    ∀ j', (json_cost j' < json_cost j)%nat → encloses h (l :: stack) j'.
Proof.
  intros (Hnodup & Hdom & Hfuel) Henc Hl Hj.
  assert (Hnotin : l ∉ stack).
  { intros Hin. specialize (Henc l j Hin Hj). lia. }
  assert (Hnodup' : NoDup (l :: stack)) by (by constructor).
  assert (Hdom' : ∀ l', l' ∈ l :: stack → is_Some (h !! l')).
  { intros l' [-> | Hin]%elem_of_cons; eauto. }
  pose proof (stack_bound (l :: stack) Hnodup' Hdom') as Hbound. simpl in Hbound.
  split; [ done | ]. destruct fuel as [ | fuel' ]; [ lia | ].
  exists fuel'. split; [ done | ]. split.
  - repeat split; [ done | done | simpl; lia ].
  - intros j' Hlt l' j'' [-> | Hin]%elem_of_cons Hj''.
    + by rewrite <- (deep_equal_functional h j (VRef l) j'' Hj Hj'').
    + specialize (Henc l' j'' Hin Hj''). lia.
Qed.

Lemma SerializeJSONProperty_plain (j : json) :
  ∀ v fuel stack,
    deep_equal h v j = true → stack_ok h stack fuel → encloses h stack j →
    SerializeJSONProperty fuel h stack v = Ret (Some (print j)).
Proof.
  induction j as [ | b | n | s | js IH | ms IH ] using json_nested_ind;
    intros v fuel stack Hv Hok Henc.
  - destruct v; try done. by destruct fuel.
  - destruct v as [ | | b' | | | | | ]; try done. simpl in Hv.
    apply Bool.eqb_prop in Hv as <-. by destruct fuel, b.
  - destruct v as [ | | | n' | | | | ]; try done. simpl in Hv.
    apply bool_decide_eq_true in Hv as <-. by destruct fuel.
  - destruct v as [ | | | | s' | | | ]; try done. simpl in Hv.
    apply String.eqb_eq in Hv as <-. by destruct fuel.
  - pose proof Hv as (l & elems & -> & Hl & HF)%deep_equal_arr.
    destruct (enter_object stack fuel l _ _ Hok Henc Hl Hv)
      as (Hnotin & fuel' & -> & Hok' & Henc').
    cbn [SerializeJSONProperty]. rewrite Hl, bool_decide_eq_false_2 by done.
    erewrite SerializeJSONArray_elements_print; [ reflexivity | ].
    eapply Forall2_with_Forall; [ exact HF | exact IH | ].
    intros v j Hin Hvj IHj. apply IHj; [ done | done | ].
    by apply Henc', json_cost_elem.
  - pose proof Hv as (l & props & -> & Hl & HF)%deep_equal_obj.
    destruct (enter_object stack fuel l _ _ Hok Henc Hl Hv)
      as (Hnotin & fuel' & -> & Hok' & Henc').
    cbn [SerializeJSONProperty]. rewrite Hl, bool_decide_eq_false_2 by done.
    erewrite SerializeJSONObject_members_print; [ reflexivity | ].
    eapply Forall2_with_Forall; [ exact HF | exact IH | ].
    intros p m Hin [Hk Hpm] IHm. split; [ done | ].
    apply IHm; [ done | done | ]. by apply Henc', json_cost_member.
Qed.

End stringify_plain.

(** [JSON.stringify] writes a value built like [j] as [print j]. *)
Theorem JSON_stringify_plain (h : gmap loc object) (v : val) (j : json) :
  deep_equal h v j = true → JSON_stringify h v = Ret (Some (print j)).
Proof.
  intros Hv. apply SerializeJSONProperty_plain; [ done | | ].
  - repeat split; [ constructor | by intros l ?%elem_of_nil | simpl; lia ].
  - by intros l j' ?%elem_of_nil.
Qed.

(** ** JSON.stringify always completes *)

Lemma SerializeJSONArray_elements_not_stuck
    (ser : val → outcome (option string)) (elems : list val) :
  Forall (λ v, ser v ≠ Stuck) elems → SerializeJSONArray_elements ser elems ≠ Stuck.
Proof.
  induction 1 as [ | v elems Hv _ IH ]; [ done | ]. simpl.
  destruct (ser v) as [ o | e | ]; [ | done | done ].
  by destruct (SerializeJSONArray_elements ser elems).
Qed.

Lemma SerializeJSONObject_members_not_stuck
    (ser : val → outcome (option string)) (props : list (string * val)) :
  Forall (λ p, ser p.2 ≠ Stuck) props → SerializeJSONObject_members ser props ≠ Stuck.
Proof.
  induction 1 as [ | [k v] props Hv _ IH ]; [ done | ]. simpl in *.
  destruct (ser v) as [ [ s | ] | e | ]; [ | done | done | done ].
  by destruct (SerializeJSONObject_members ser props).
Qed.

Lemma SerializeJSONProperty_not_stuck (h : gmap loc object) (fuel : nat) :
  closed_heap h →
  ∀ stack v, closed_val h v → stack_ok h stack fuel →
             SerializeJSONProperty fuel h stack v ≠ Stuck.
Proof.
  intros Hheap. induction fuel as [ | fuel IH ]; intros stack v Hv (Hnodup & Hdom & Hfuel).
  - destruct v as [ | | [] | | | | | l ]; try done. cbn [SerializeJSONProperty].
    destruct Hv as [o Hl]. rewrite Hl. destruct o as [ props | elems | ]; [ | | done ];
      (case_bool_decide as Hin; [ done | ]);
      (assert (Hbound : (length (l :: stack) ≤ size h)%nat);
       [ apply stack_bound; [ by constructor | intros l' [-> | ?]%elem_of_cons; eauto ]
       | simpl in Hbound; lia ]).
  - destruct v as [ | | [] | | | | | l ]; try done. cbn [SerializeJSONProperty].
    destruct Hv as [o Hl]. rewrite Hl. pose proof (Hheap l o Hl) as Hclosed.
    assert (Hinner : l ∉ stack → ∀ v', closed_val h v' →
              SerializeJSONProperty fuel h (l :: stack) v' ≠ Stuck).
    { intros Hnotin v' Hv'. apply IH; [ done | ].
      repeat split; [ by constructor | | simpl; lia ].
      intros l' [-> | ?]%elem_of_cons; eauto. }
    destruct o as [ props | elems | ]; [ | | done ];
      (case_bool_decide as Hin; [ done | ]); specialize (Hinner Hin); simpl in Hclosed.
    + assert (Hms : SerializeJSONObject_members
                      (SerializeJSONProperty fuel h (l :: stack)) props ≠ Stuck).
      { apply SerializeJSONObject_members_not_stuck.
        eapply Forall_impl; [ exact Hclosed | ]. intros p. apply Hinner. }
      by destruct (SerializeJSONObject_members _ props).
    + assert (Hms : SerializeJSONArray_elements
                      (SerializeJSONProperty fuel h (l :: stack)) elems ≠ Stuck).
      { apply SerializeJSONArray_elements_not_stuck.
        eapply Forall_impl; [ exact Hclosed | ]. intros p. apply Hinner. }
      by destruct (SerializeJSONArray_elements _ elems).
Qed.

(** On the heap of a program, [JSON.stringify] returns or throws: the
    fuel it is given is enough. *)
Theorem JSON_stringify_not_stuck (h : gmap loc object) (v : val) :
  closed_heap h → closed_val h v → JSON_stringify h v ≠ Stuck.
Proof.
  intros Hheap Hv. apply SerializeJSONProperty_not_stuck; [ done | done | ].
  repeat split; [ constructor | by intros l ?%elem_of_nil | simpl; lia ].
Qed.

(** ** The repository *)

Lemma saveUser_unfold (userDetails : val) (w : world) :
  UserRepositoryService.saveUser userDetails w =
  match JSON_stringify (heap w) userDetails with
  | Ret (Some s) =>
      (Ret true, World (heap w) (<["LSuserDetails" := VStr s]> (storage w)))
  | Ret None =>
      (Ret true, World (heap w) (<["LSuserDetails" := VUndefined]> (storage w)))
  | Throw e => (Ret false, w)
  | Stuck => (Stuck, w)
  end.
Proof.
  unfold UserRepositoryService.saveUser, try_catch, mbind, M_bind, call_stringify.
  by destruct (JSON_stringify (heap w) userDetails) as [ [ s | ] | e | ].
Qed.

Lemma getAllUsers_unfold (w : world) :
  UserRepositoryService.getAllUsers w =
  (Ret (js_or (default VUndefined (storage w !! "LSuserDetails")) VNull), w).
Proof. reflexivity. Qed.

Lemma saveUser_serialization (userDetails : val) (w w' : world) :
  UserRepositoryService.saveUser userDetails w = (Ret true, w') →
  ∃ s, serialization (heap w) userDetails = Some s ∧
       w' = World (heap w) (<["LSuserDetails" := s]> (storage w)).
Proof.
  rewrite saveUser_unfold. unfold serialization.
  destruct (JSON_stringify (heap w) userDetails) as [ [ s | ] | e | ];
    intros [= <-]; eauto.
Qed.

(** A serialization is never the empty string. *)
Lemma JSON_stringify_nonempty (h : gmap loc object) (v : val) (s : string) :
  JSON_stringify h v = Ret (Some s) → s ≠ "".
Proof.
  unfold JSON_stringify. cbn [SerializeJSONProperty].
  destruct v as [ | | [] | n | s' | | | l ];
    try (by intros [= <-]); try done.
  - destruct (SerializeNumber_head n) as (c & r & -> & _). by intros [= <-].
  - destruct (h !! l) as [ [ props | elems | ] | ]; try done;
      destruct (bool_decide (l ∈ []%list)); try done.
    + destruct (SerializeJSONObject_members _ props); try done. by intros [= <-].
    + destruct (SerializeJSONArray_elements _ elems); try done. by intros [= <-].
Qed.

Lemma print_nonempty (j : json) : print j ≠ "".
Proof. destruct (print_head j) as (c & r & -> & _). done. Qed.

Lemma js_or_nonempty_string (s : string) (v : val) : s ≠ "" → js_or (VStr s) v = VStr s.
Proof.
  intros Hs. unfold js_or, ToBoolean.
  by destruct (String.eqb_spec s "").
Qed.

Lemma getAllUsers_stored (w : world) (v : val) :
  storage w !! "LSuserDetails" = Some v →
  UserRepositoryService.getAllUsers w = (Ret (js_or v VNull), w).
Proof.
  intros Hv. unfold UserRepositoryService.getAllUsers, localStorage.getItem,
    localStorage.storage_get. by rewrite Hv.
Qed.

Lemma getAllUsers_absent (w : world) :
  storage w !! "LSuserDetails" = None →
  UserRepositoryService.getAllUsers w = (Ret VNull, w).
Proof.
  intros Hv. unfold UserRepositoryService.getAllUsers, localStorage.getItem,
    localStorage.storage_get. by rewrite Hv.
Qed.

(** ** What a JSON text keeps *)

Lemma reaches_trans (h : gmap loc object) (v1 v2 v3 : val) :
  reaches h v1 v2 → reaches h v2 v3 → reaches h v1 v3.
Proof.
  induction 1 as [ v | l o v v' Hl Hv _ IH ]; [ done | ].
  intros H3. eapply reaches_inside; eauto.
Qed.

(** A test that holds of [R] and of every value held in the heap holds
    of every value [R] reaches. *)
Lemma heap_all_reaches (f : val → bool) (h : gmap loc object) (R : val) :
  f R = true → heap_all f h = true → ∀ v, reaches h R v → f v = true.
Proof.
  intros HR Hheap v Hv. induction Hv as [ v | l o v v' Hl Hv _ IH ]; [ done | ].
  apply IH. unfold heap_all in Hheap. rewrite forallb_forall in Hheap.
  specialize (Hheap (l, o)). cbn [snd] in Hheap. rewrite forallb_forall in Hheap.
  apply Hheap; [ | by apply list_elem_of_In ].
  by apply list_elem_of_In, elem_of_map_to_list.
Qed.

Lemma kept_is_written (h : gmap loc object) (fuel : nat) (stack : list loc) (v : val) :
  kept h v = true → SerializeJSONProperty fuel h stack v ≠ Ret None.
Proof.
  destruct v as [ | | [] | n | s | z | d | l ]; destruct fuel as [ | fuel ];
    cbn [kept SerializeJSONProperty]; try done;
    (destruct (h !! l) as [ [ props | elems | ] | ]; try done; intros _);
    (destruct (bool_decide (l ∈ stack)); [ done | ]); try done.
  - by destruct (SerializeJSONObject_members _ props).
  - by destruct (SerializeJSONArray_elements _ elems).
Qed.

Lemma SerializeJSONObject_members_ret
    (ser : val → outcome (option string)) (props : list (string * val)) (ms : list string) :
  SerializeJSONObject_members ser props = Ret ms →
  Forall (λ p, ∃ o, ser p.2 = Ret o) props.
Proof.
  revert ms. induction props as [ | [k v] props IH ]; intros ms H; [ constructor | ].
  simpl in H. destruct (ser v) as [ [ s | ] | e | ] eqn:Hv; try done.
  - destruct (SerializeJSONObject_members ser props) as [ ms' | e | ] eqn:Hms; try done.
    constructor; eauto.
  - constructor; eauto.
Qed.

Lemma SerializeJSONArray_elements_ret
    (ser : val → outcome (option string)) (elems : list val) (ms : list string) :
  SerializeJSONArray_elements ser elems = Ret ms →
  Forall (λ v, ∃ o, ser v = Ret o) elems.
Proof.
  revert ms. induction elems as [ | v elems IH ]; intros ms H; [ constructor | ].
  simpl in H. destruct (ser v) as [ o | e | ] eqn:Hv; try done.
  destruct (SerializeJSONArray_elements ser elems) as [ ms' | e | ] eqn:Hms; try done.
  constructor; eauto.
Qed.

Lemma Forall_exists_Forall2 {A B : Type} (P : A → B → Prop) (xs : list A) :
  Forall (λ x, ∃ y, P x y) xs → ∃ ys, Forall2 P xs ys.
Proof.
  induction 1 as [ | x xs [y Hy] _ [ys Hys] ]; [ by exists [] | ].
  exists (y :: ys). by constructor.
Qed.

(** A value that [JSON.stringify] writes and that holds nothing a JSON
    text does not keep is built like a JSON term. *)
Lemma lossless_is_plain (h : gmap loc object) (fuel : nat) :
  ∀ stack v s,
    lossless h v → well_formed h v →
    SerializeJSONProperty fuel h stack v = Ret (Some s) →
    ∃ j, deep_equal h v j = true ∧ json_wf j = true.
Proof.
  induction fuel as [ fuel IH ] using lt_wf_ind. intros stack v s Hkept Hwf Hs.
  pose proof (Hkept v (reaches_here h v)) as Hv.
  pose proof (Hwf v (reaches_here h v)) as Hvwf.
  destruct v as [ | | b | n | s' | z | d | l ]; try done.
  - by exists JNull.
  - exists (JBool b). by destruct b.
  - exists (JNum n). split; [ by apply bool_decide_eq_true | ].
    by destruct n as [ z | | [] | | neg p e ].
  - exists (JStr s'). split; [ apply String.eqb_refl | done ].
  - by destruct fuel.
  - destruct fuel as [ | fuel ]; cbn [SerializeJSONProperty kept value_wf] in Hs, Hv, Hvwf;
      (destruct (h !! l) as [ [ props | elems | ] | ] eqn:Hl; try done);
      (destruct (bool_decide (l ∈ stack)); [ done | ]); try done.
    + destruct (SerializeJSONObject_members _ props) as [ ms | e | ] eqn:Hms; try done.
      apply SerializeJSONObject_members_ret in Hms.
      assert (Hterms : Forall (λ p, ∃ m : string * json,
                 p.1 = m.1 ∧ deep_equal h p.2 m.2 = true ∧ json_wf m.2 = true) props).
      { rewrite Forall_forall in Hms |- *. intros [k v] Hin.
        destruct (Hms _ Hin) as [o Ho]. cbn [fst snd] in *.
        assert (Hreach : reaches h (VRef l) v).
        { eapply reaches_inside; [ exact Hl | | constructor ].
          cbn [object_values]. apply list_elem_of_In, in_map_iff. exists (k, v).
          split; [ done | by apply list_elem_of_In ]. }
        destruct o as [ s0 | ];
          [ | by destruct (kept_is_written h fuel (l :: stack) v (Hkept _ Hreach)) ].
        destruct (IH fuel ltac:(lia) (l :: stack) v s0) as (j & Hj & Hjwf); [ | | done | ].
        - intros v' Hv'. apply Hkept. by eapply reaches_trans.
        - intros v' Hv'. apply Hwf. by eapply reaches_trans.
        - by exists (k, j). }
      apply Forall_exists_Forall2 in Hterms as [ms' Hterms].
      exists (JObj ms'). split.
      * apply deep_equal_obj. exists l, props. split; [ done | ]. split; [ done | ].
        eapply Forall2_impl; [ exact Hterms | ]. by intros p m (? & ? & ?).
      * cbn [json_wf]. apply andb_true_intro. split.
        -- apply bool_decide_eq_true. apply bool_decide_eq_true in Hvwf.
           replace (List.map fst ms') with (List.map fst props); [ done | ].
           clear -Hterms. induction Hterms as [ | p m props ms' (Hk & _) _ IHt ]; [ done | ].
           simpl. by rewrite Hk, IHt.
        -- clear -Hterms.
           induction Hterms as [ | p m props ms' (_ & _ & Hjwf) _ IHt ]; [ done | ].
           simpl. by rewrite Hjwf.
    + destruct (SerializeJSONArray_elements _ elems) as [ ms | e | ] eqn:Hms; try done.
      apply SerializeJSONArray_elements_ret in Hms.
      assert (Hterms : Forall (λ v, ∃ j : json,
                 deep_equal h v j = true ∧ json_wf j = true) elems).
      { rewrite Forall_forall in Hms |- *. intros v Hin.
        destruct (Hms _ Hin) as [o Ho].
        assert (Hreach : reaches h (VRef l) v).
        { eapply reaches_inside; [ exact Hl | done | constructor ]. }
        destruct o as [ s0 | ];
          [ | by destruct (kept_is_written h fuel (l :: stack) v (Hkept _ Hreach)) ].
        destruct (IH fuel ltac:(lia) (l :: stack) v s0) as (j & Hj & Hjwf); [ | | done | ].
        - intros v' Hv'. apply Hkept. by eapply reaches_trans.
        - intros v' Hv'. apply Hwf. by eapply reaches_trans.
        - by exists j. }
      apply Forall_exists_Forall2 in Hterms as [js Hterms].
      exists (JArr js). split.
      * apply deep_equal_arr. exists l, elems. split; [ done | ]. split; [ done | ].
        eapply Forall2_impl; [ exact Hterms | ]. by intros v j (? & ?).
      * cbn [json_wf]. clear -Hterms.
        induction Hterms as [ | v j elems js (_ & Hjwf) _ IHt ]; [ done | ].
        simpl. by rewrite Hjwf.
Qed.

(** ** The round trip *)

(** A record built like a well-formed JSON term is saved and read back
    as the text of that term. *)
Lemma saveUser_reads_back_term (w : world) (R : val) (j : json) :
  deep_equal (heap w) R j = true → json_wf j = true → round_trip_law w R.
Proof.
  intros HR Hwf.
  exists (World (heap w) (<["LSuserDetails" := VStr (print j)]> (storage w))), (print j), j.
  split; [ | split; [ | split ] ].
  - by rewrite saveUser_unfold, (JSON_stringify_plain _ _ _ HR).
  - rewrite (getAllUsers_stored _ (VStr (print j))) by apply lookup_insert_eq.
    by rewrite js_or_nonempty_string by apply print_nonempty.
  - by apply JSON_parse_print.
  - done.
Qed.

(** When the read after a save gives a text that parses to a value
    that differs from the record, or gives no text, the law fails. *)
Lemma round_trip_law_fails (w : world) (R : val) :
  match JSON_stringify (heap w) R with
  | Ret (Some s) =>
      match JSON_parse s with
      | Some j => deep_equal (heap w) R j = false
      | None => True
      end
  | _ => True
  end →
  ¬ round_trip_law w R.
Proof.
  intros Hlossy (w' & s & j & Hsave & Hget & Hparse & Heq).
  rewrite saveUser_unfold in Hsave.
  destruct (JSON_stringify (heap w) R) as [ [ s0 | ] | e | ] eqn:Hs; try done.
  - injection Hsave as <-.
    rewrite (getAllUsers_stored _ (VStr s0)) in Hget by apply lookup_insert_eq.
    rewrite js_or_nonempty_string in Hget by exact (JSON_stringify_nonempty _ _ _ Hs).
    injection Hget as <-. rewrite Hparse in Hlossy. congruence.
  - injection Hsave as <-.
    by rewrite (getAllUsers_stored _ VUndefined) in Hget by apply lookup_insert_eq.
Qed.

(** C1, as amended: for every serializable record [R] that holds no
    value a JSON text does not keep, [undefined], a function, a symbol,
    [NaN], an infinity or the negative zero, at any depth, [saveUser R]
    returns true and the value [getAllUsers] returns next is a text
    that parses to a value equal to [R]. *)
Theorem saveUser_round_trip (w : world) (R : val) :
  well_formed (heap w) R → serializable (heap w) R → lossless (heap w) R →
  round_trip_law w R.
Proof.
  intros Hwf [o Ho] Hkept.
  destruct o as [ s | ].
  - destruct (lossless_is_plain (heap w) _ [] R s Hkept Hwf Ho) as (j & Hj & Hjwf).
    by apply (saveUser_reads_back_term w R j).
  - by destruct (kept_is_written (heap w) (S (size (heap w))) [] R
                   (Hkept R (reaches_here _ R))).
Qed.

Lemma saveUser_round_trip_witness :
  round_trip_law priced_world (VRef 1%positive) ∧
  JSON_stringify (heap priced_world) (VRef 1%positive) =
    Ret (Some (json_text
      "{'id':7,'price':9.99,'tags':['new',null,true],'size':{'width':1.5e-7,'depth':1e+21}}")).
Proof.
  split; [ | vm_compute; reflexivity ].
  apply (saveUser_round_trip priced_world (VRef 1%positive)).
  - refine (heap_all_reaches (value_wf _) _ _ _ _); vm_compute; reflexivity.
  - eexists. vm_compute. reflexivity.
  - refine (heap_all_reaches (kept _) _ _ _ _); vm_compute; reflexivity.
Defined.

(** Each kind of value that the amended law leaves out breaks it. *)
Lemma lossy_examples_fail :
  Forall (λ wR, serializable (heap wR.1) wR.2 ∧ ¬ round_trip_law wR.1 wR.2) lossy_examples.
Proof.
  repeat constructor; try (eexists; vm_compute; reflexivity);
    apply round_trip_law_fails; vm_compute; reflexivity.
Qed.

(** C1, as stated, fails: a record with a property whose value is
    [undefined] is serializable, and what is read back after saving it
    parses to a value without that property. *)
Lemma round_trip_law_lossy_record :
  JSON_stringify (heap lossy_world) (VRef 1%positive) = Ret (Some lossy_text) ∧
  UserRepositoryService.saveUser (VRef 1%positive) lossy_world = (Ret true, lossy_saved) ∧
  UserRepositoryService.getAllUsers lossy_saved = (Ret (VStr lossy_text), lossy_saved) ∧
  JSON_parse lossy_text = Some (JObj [("id", JNum (NInt 1))]) ∧
  deep_equal (heap lossy_world) (VRef 1%positive) (JObj [("id", JNum (NInt 1))]) = false ∧
  serializable (heap lossy_world) (VRef 1%positive) ∧
  ¬ round_trip_law lossy_world (VRef 1%positive).
Proof.
  assert (Hs : JSON_stringify (heap lossy_world) (VRef 1%positive) = Ret (Some lossy_text))
    by (vm_compute; reflexivity).
  assert (Hsaved : UserRepositoryService.saveUser (VRef 1%positive) lossy_world
                   = (Ret true, lossy_saved))
    by (vm_compute; reflexivity).
  assert (Hread : UserRepositoryService.getAllUsers lossy_saved
                  = (Ret (VStr lossy_text), lossy_saved))
    by (vm_compute; reflexivity).
  assert (Hj : JSON_parse lossy_text = Some (JObj [("id", JNum (NInt 1))]))
    by (vm_compute; reflexivity).
  assert (Hne : deep_equal (heap lossy_world) (VRef 1%positive) (JObj [("id", JNum (NInt 1))])
                = false)
    by (vm_compute; reflexivity).
  repeat (split; [ done | ]). split.
  - by eexists.
  - intros (w' & s & j & Hsave & Hget & Hparse & Heq).
    rewrite Hsaved in Hsave. injection Hsave as <-.
    rewrite Hread in Hget. injection Hget as <-.
    rewrite Hj in Hparse. injection Hparse as <-.
    by rewrite Hne in Heq.
Qed.

(** ** The scenario *)

(** The usage of main.ts prints [true] and the text of the record. *)
Lemma main_run :
  (main fresh_world).1 = Ret (true, VStr userData_text) ∧
  storage (main fresh_world).2 = {[ "LSuserDetails" := VStr userData_text ]}.
Proof. split; vm_compute; reflexivity. Qed.

Lemma scenario_run :
  scenario fresh_world =
    (Ret (ScenarioResult (VRef 1%positive) true (VStr userData_text)
                         (VRef 2%positive) true (VStr janeData_text)),
     scenario_end).
Proof. vm_compute. reflexivity. Qed.

(** C2, as amended: from a fresh store, saving the first record through
    the controller returns true; the next read returns the JSON text of
    that record, a string that parses to a value equal to the record;
    after the second save the read returns the text of the second record
    and the store holds nothing else. *)
Theorem scenario_outcome :
  scenario fresh_world =
    (Ret (ScenarioResult (VRef 1%positive) true (VStr userData_text)
                         (VRef 2%positive) true (VStr janeData_text)),
     scenario_end) ∧
  JSON_parse userData_text = Some userData_json ∧
  deep_equal (heap scenario_end) (VRef 1%positive) userData_json = true ∧
  storage scenario_end = {[ "LSuserDetails" := VStr janeData_text ]}.
Proof.
  split; [ exact scenario_run | ].
  repeat split; vm_compute; reflexivity.
Qed.

(** C2, as stated, fails: the value read after the first save is a
    string, not the saved record nor a value built like it. *)
Lemma scenario_read_is_not_the_record :
  ∃ r,
    scenario fresh_world = (Ret r, scenario_end) ∧
    first_save r = true ∧
    first_record r = VRef 1%positive ∧
    first_read r = VStr userData_text ∧
    first_read r ≠ first_record r ∧
    ∀ j, deep_equal (heap scenario_end) (first_record r) j = true →
         deep_equal (heap scenario_end) (first_read r) j = false.
Proof.
  eexists. split; [ exact scenario_run | ].
  cbn [first_save first_read first_record].
  repeat (split; [ done | ]).
  intros j Hj. destruct j; try done.
Qed.

(** ** Failure, overwriting, transparency *)

(** C3: when serializing [R] throws, [saveUser R] returns false, no
    error reaches the caller, and the state, the store included, is
    the one before the call. *)
Theorem saveUser_not_serializable (w : world) (R : val) (e : error) :
  JSON_stringify (heap w) R = Throw e →
  UserRepositoryService.saveUser R w = (Ret false, w).
Proof. intros Hthrow. by rewrite saveUser_unfold, Hthrow. Qed.

Lemma saveUser_not_serializable_witness :
  JSON_stringify (heap cyclic_world) (VRef 1%positive) = Throw TypeError ∧
  UserRepositoryService.saveUser (VRef 1%positive) cyclic_world = (Ret false, cyclic_world).
Proof.
  split; [ vm_compute; reflexivity | ].
  apply (saveUser_not_serializable cyclic_world (VRef 1%positive) TypeError).
  vm_compute. reflexivity.
Defined.

(** C4: after two successful saves in a row, the store holds the
    serialization of the second record and is the store a single save
    of the second record would have left; the read that follows
    returns that serialization, the text of the second record, or null
    when the second record has no text and [undefined] was stored. *)
Theorem last_write_wins (w w1 w2 : world) (R1 R2 : val) :
  UserRepositoryService.saveUser R1 w = (Ret true, w1) →
  UserRepositoryService.saveUser R2 w1 = (Ret true, w2) →
  ∃ s2,
    serialization (heap w) R2 = Some s2 ∧
    storage w2 !! "LSuserDetails" = Some s2 ∧
    UserRepositoryService.saveUser R2 w = (Ret true, w2) ∧
    UserRepositoryService.getAllUsers w2 =
      (Ret match s2 with VUndefined => VNull | _ => s2 end, w2) ∧
    (∀ text, JSON_stringify (heap w) R2 = Ret (Some text) →
             UserRepositoryService.getAllUsers w2 = (Ret (VStr text), w2)).
Proof.
  intros H1 H2.
  apply saveUser_serialization in H1 as (s1 & Hs1 & ->).
  pose proof H2 as (s2 & Hs2 & ->)%saveUser_serialization. cbn [heap storage] in *.
  exists s2. split; [ done | ]. split; [ apply lookup_insert_eq | ].
  set (w2 := World (heap w) (<["LSuserDetails" := s2]> (<["LSuserDetails" := s1]> (storage w)))).
  assert (Hread : UserRepositoryService.getAllUsers w2 =
                    (Ret match s2 with VUndefined => VNull | _ => s2 end, w2)).
  { rewrite (getAllUsers_stored w2 s2) by apply lookup_insert_eq.
    unfold serialization in Hs2.
    destruct (JSON_stringify (heap w) R2) as [ [ text | ] | | ] eqn:Htext; try done;
      injection Hs2 as <-; [ | done ].
    by rewrite js_or_nonempty_string by exact (JSON_stringify_nonempty _ _ _ Htext). }
  split; [ | split; [ exact Hread | ] ].
  - rewrite saveUser_unfold in *. unfold serialization in Hs2. cbn [heap storage] in *.
    destruct (JSON_stringify (heap w) R2) as [ [ s | ] | | ]; try done;
      injection Hs2 as <-; subst w2; by rewrite insert_insert_eq.
  - intros text Htext. rewrite Hread. unfold serialization in Hs2.
    rewrite Htext in Hs2. by injection Hs2 as <-.
Qed.

Lemma last_write_wins_witness :
  serialization (heap scenario_start) (VRef 2%positive) = Some (VStr janeData_text) ∧
  storage scenario_end !! "LSuserDetails" = Some (VStr janeData_text) ∧
  UserRepositoryService.saveUser (VRef 2%positive) scenario_start
    = (Ret true, scenario_end) ∧
  UserRepositoryService.getAllUsers scenario_end = (Ret (VStr janeData_text), scenario_end).
Proof.
  destruct (last_write_wins scenario_start
              (World (heap scenario_start) {[ "LSuserDetails" := VStr userData_text ]})
              scenario_end (VRef 1%positive) (VRef 2%positive))
    as (s2 & Hs2 & Hstored & Hsave & _ & Hread).
  - vm_compute. reflexivity.
  - vm_compute. reflexivity.
  - assert (Htext : JSON_stringify (heap scenario_start) (VRef 2%positive)
                    = Ret (Some janeData_text)) by (vm_compute; reflexivity).
    unfold serialization in Hs2. rewrite Htext in Hs2. injection Hs2 as <-.
    split; [ by unfold serialization; rewrite Htext | ].
    split; [ done | ]. split; [ done | by apply Hread ].
Defined.

(** C5: whatever the repository at the bottom of the chain, the
    service and the controller return what it returns and leave the
    state it leaves, for saving and for reading. *)
Theorem layers_are_transparent (repo : IUserRepositoryService.t) (R : val) (w : world) :
  let service := BussinessService.new repo in
  let controller := UserController.new service in
  UserController.saveUserData controller R w = IUserRepositoryService.saveUser repo R w ∧
  UserController.getAllUserData controller w = IUserRepositoryService.getAllUsers repo w ∧
  IUserBussinessService.saveUser service R w = IUserRepositoryService.saveUser repo R w ∧
  IUserBussinessService.getAllUsers service w = IUserRepositoryService.getAllUsers repo w.
Proof. by destruct repo. Qed.

(** The chain wired in main.ts behaves as its repository. *)
Lemma userController_is_repository (R : val) (w : world) :
  UserController.saveUserData userController R w = UserRepositoryService.saveUser R w ∧
  UserController.getAllUserData userController w = UserRepositoryService.getAllUsers w.
Proof. done. Qed.

(** C6: on a store nothing was saved to, [getAllUsers] returns null
    and does not throw, whatever the heap holds. *)
Theorem getAllUsers_fresh_store (h : gmap loc object) :
  UserRepositoryService.getAllUsers (World h ∅) = (Ret VNull, World h ∅).
Proof. by apply getAllUsers_absent. Qed.

(** C7, as amended: [getAllUsers] returns the stored value as it is,
    unparsed, when that value is truthy, and so whenever it is a text
    that a save produced, which is never empty; when the stored value
    is falsy, the [undefined] of a save without text or an empty
    string, it returns null. *)
Theorem getAllUsers_returns_stored_text (w : world) (v : val) :
  storage w !! "LSuserDetails" = Some v →
  (∀ h R s, JSON_stringify h R = Ret (Some s) → v = VStr s →
            UserRepositoryService.getAllUsers w = (Ret (VStr s), w)) ∧
  (ToBoolean v = true → UserRepositoryService.getAllUsers w = (Ret v, w)) ∧
  (ToBoolean v = false → UserRepositoryService.getAllUsers w = (Ret VNull, w)).
Proof.
  intros Hstored. rewrite (getAllUsers_stored w v Hstored).
  split; [ | split ].
  - intros h R s Hs ->.
    by rewrite js_or_nonempty_string by exact (JSON_stringify_nonempty h R s Hs).
  - intros Htruthy. unfold js_or. by rewrite Htruthy.
  - intros Hfalsy. unfold js_or. by rewrite Hfalsy.
Qed.

Lemma getAllUsers_returns_stored_text_witness :
  UserRepositoryService.getAllUsers scenario_end = (Ret (VStr janeData_text), scenario_end).
Proof.
  destruct (getAllUsers_returns_stored_text scenario_end (VStr janeData_text))
    as (Htext & _ & _).
  - vm_compute. reflexivity.
  - apply (Htext (heap scenario_end) (VRef 2%positive)); [ vm_compute | ]; reflexivity.
Defined.

(** C7, as stated, fails: after [saveUser(undefined)] the store holds
    a value, [undefined], and [getAllUsers] returns null, not what is
    stored. *)
Lemma getAllUsers_hides_stored_undefined :
  UserRepositoryService.saveUser VUndefined fresh_world = (Ret true, undefined_saved) ∧
  storage undefined_saved !! "LSuserDetails" = Some VUndefined ∧
  UserRepositoryService.getAllUsers undefined_saved = (Ret VNull, undefined_saved) ∧
  VNull ≠ VUndefined.
Proof. repeat split; try (vm_compute; reflexivity). discriminate. Qed.

(** ** One record at a time *)

Lemma run_call_one_key (w : world) (c : call) : one_key w → one_key (run_call w c).
Proof.
  unfold one_key. intros Hw. destruct c as [ R | | o ]; cbn [run_call]; [ | done | done ].
  rewrite saveUser_unfold.
  destruct (JSON_stringify (heap w) R) as [ [ s | ] | e | ]; cbn [snd storage];
    [ | | done | done ]; rewrite dom_insert_L; by apply union_least.
Qed.

Lemma run_calls_one_key (cs : list call) (w : world) :
  one_key w → one_key (run_calls cs w).
Proof.
  revert w. induction cs as [ | c cs IH ]; intros w Hw; [ done | ].
  apply IH. by apply run_call_one_key.
Qed.

Lemma one_key_overwrite (w : world) (v : val) :
  one_key w → <["LSuserDetails" := v]> (storage w) = {[ "LSuserDetails" := v ]}.
Proof.
  unfold one_key. intros Hw. apply map_eq. intros k.
  destruct (decide (k = "LSuserDetails")) as [-> | Hne].
  - by rewrite lookup_insert_eq, lookup_singleton_eq.
  - rewrite lookup_insert_ne, lookup_singleton_ne by done.
    apply not_elem_of_dom. set_solver.
Qed.

(** C8: after any sequence of calls from the start of the process, the
    store holds at most the key "LSuserDetails", hence at most one
    record, and a save that succeeds next leaves exactly the
    serialization of its record in the store. *)
Theorem store_holds_one_record (cs : list call) :
  let w := run_calls cs fresh_world in
  dom (storage w) ⊆ ({[ "LSuserDetails" ]} : gset string) ∧
  (size (storage w) ≤ 1)%nat ∧
  ∀ R w', UserRepositoryService.saveUser R w = (Ret true, w') →
          ∃ s, serialization (heap w) R = Some s ∧
               storage w' = {[ "LSuserDetails" := s ]}.
Proof.
  intros w.
  assert (Hw : one_key w).
  { apply run_calls_one_key. unfold one_key. cbn. set_solver. }
  split; [ exact Hw | ]. split.
  - rewrite <- size_dom. etrans; [ exact (subseteq_size _ _ Hw) | ].
    by rewrite size_singleton.
  - intros R w' (s & Hs & ->)%saveUser_serialization.
    exists s. split; [ done | ]. by apply one_key_overwrite.
Qed.

Lemma store_holds_one_record_witness :
  ∃ s, serialization (heap (run_calls [Allocate userData_literal; CallSaveUser (VRef 1%positive);
                                        CallGetAllUsers; Allocate janeData_literal] fresh_world))
                     (VRef 2%positive) = Some s ∧
       storage scenario_end = {[ "LSuserDetails" := s ]}.
Proof.
  apply (store_holds_one_record
           [Allocate userData_literal; CallSaveUser (VRef 1%positive);
            CallGetAllUsers; Allocate janeData_literal]).
  vm_compute. reflexivity.
Defined.

(** C9: when the serialization of [R] is [undefined], [saveUser R]
    returns true and the read that follows returns null. *)
Theorem saveUser_undefined_then_null (w : world) (R : val) :
  JSON_stringify (heap w) R = Ret None →
  ∃ w', UserRepositoryService.saveUser R w = (Ret true, w') ∧
        UserRepositoryService.getAllUsers w' = (Ret VNull, w').
Proof.
  intros Hundef. eexists. split.
  - by rewrite saveUser_unfold, Hundef.
  - by rewrite (getAllUsers_stored _ VUndefined) by apply lookup_insert_eq.
Qed.

Lemma saveUser_undefined_then_null_witness :
  (∃ w', UserRepositoryService.saveUser VUndefined fresh_world = (Ret true, w') ∧
         UserRepositoryService.getAllUsers w' = (Ret VNull, w')) ∧
  (∃ w', UserRepositoryService.saveUser (VRef 1%positive) (World {[ 1%positive := OFun ]} ∅)
           = (Ret true, w') ∧
         UserRepositoryService.getAllUsers w' = (Ret VNull, w')).
Proof.
  split.
  - apply (saveUser_undefined_then_null fresh_world VUndefined). vm_compute. reflexivity.
  - apply (saveUser_undefined_then_null (World {[ 1%positive := OFun ]} ∅) (VRef 1%positive)).
    vm_compute. reflexivity.
Defined.

(** C10: when the value stored under a key is the empty string,
    [getItem] returns null, as it does for a key that was never stored;
    so does [getAllUsers] for its key. *)
Theorem getItem_empty_string_is_null (w : world) (key : string) :
  storage w !! key = Some (VStr "") →
  localStorage.getItem key w = (Ret VNull, w) ∧
  (∀ w0, storage w0 !! key = None →
         (localStorage.getItem key w0).1 = (localStorage.getItem key w).1) ∧
  (key = "LSuserDetails" →
   (UserRepositoryService.getAllUsers w).1 =
   (UserRepositoryService.getAllUsers (World (heap w) ∅)).1).
Proof.
  intros Hstored.
  assert (Hget : localStorage.getItem key w = (Ret VNull, w)).
  { unfold localStorage.getItem, localStorage.storage_get. by rewrite Hstored. }
  split; [ done | ]. split.
  - intros w0 Hnone. rewrite Hget.
    unfold localStorage.getItem, localStorage.storage_get. by rewrite Hnone.
  - intros ->. unfold UserRepositoryService.getAllUsers. by rewrite Hget.
Qed.

Lemma getItem_empty_string_is_null_witness :
  localStorage.getItem "LSuserDetails" (World ∅ {[ "LSuserDetails" := VStr "" ]})
    = (Ret VNull, World ∅ {[ "LSuserDetails" := VStr "" ]}) ∧
  (localStorage.getItem "LSuserDetails" fresh_world).1 = Ret VNull.
Proof.
  destruct (getItem_empty_string_is_null
              (World ∅ {[ "LSuserDetails" := VStr "" ]}) "LSuserDetails")
    as (Hget & Hsame & _).
  - vm_compute. reflexivity.
  - split; [ exact Hget | ].
    rewrite (Hsame fresh_world); [ by rewrite Hget | vm_compute; reflexivity ].
Defined.

(** ** Regular expressions *)

Lemma append_eq_nil (a b : string) : a +:+ b = "" → a = "" ∧ b = "".
Proof. destruct a; [ done | by rewrite append_cons ]. Qed.

Lemma append_eq_cons (a b : string) (c : ascii) (s : string) :
  a +:+ b = String c s →
  (a = "" ∧ b = String c s) ∨ ∃ a', a = String c a' ∧ s = a' +:+ b.
Proof.
  destruct a as [ | c' a' ]; [ by left | ].
  rewrite append_cons. intros [= -> <-]. right. by exists a'.
Qed.

Lemma nullable_matches (r : regex) : nullable r = true ↔ matches r "".
Proof.
  split.
  - induction r as [ | | p | r1 IH1 r2 IH2 | r1 IH1 r2 IH2 | r IH ]; simpl; try done.
    + intros _. constructor.
    + intros [H1 H2]%andb_prop. apply (matches_seq r1 r2 "" ""); auto.
    + intros [H | H]%orb_prop; [ apply matches_alt_l | apply matches_alt_r ]; auto.
    + intros _. constructor.
  - intros H. remember "" as s eqn:Hs.
    induction H as [ | | r1 r2 s1 s2 _ IH1 _ IH2 | r1 r2 s _ IH | r1 r2 s _ IH | | ];
      simpl; try done.
    + apply append_eq_nil in Hs as [-> ->]. by rewrite IH1, IH2.
    + by rewrite IH.
    + rewrite IH by done. apply orb_true_r.
Qed.

Lemma derivative_sound (c : ascii) (r : regex) :
  ∀ s, matches (derivative c r) s → matches r (String c s).
Proof.
  induction r as [ | | p | r1 IH1 r2 IH2 | r1 IH1 r2 IH2 | r IH ]; intros s H; simpl in H.
  - inversion H.
  - inversion H.
  - destruct (p c) eqn:Hp; inversion H; subst. by constructor.
  - destruct (nullable r1) eqn:Hnull.
    + inversion H as [ | | | ? ? ? H' | ? ? ? H' | | ]; subst.
      * inversion H' as [ | | ? ? s1 s2 H1 H2 | | | | ]; subst.
        rewrite <- append_cons. constructor; auto.
      * change (String c s) with ("" +:+ String c s).
        constructor; [ by apply nullable_matches | auto ].
    + inversion H as [ | | ? ? s1 s2 H1 H2 | | | | ]; subst.
      rewrite <- append_cons. constructor; auto.
  - inversion H; subst; [ apply matches_alt_l | apply matches_alt_r ]; auto.
  - inversion H as [ | | ? ? s1 s2 H1 H2 | | | | ]; subst.
    rewrite <- append_cons. constructor; auto.
Qed.

Lemma derivative_complete (r : regex) (s0 : string) :
  matches r s0 → ∀ c s, s0 = String c s → matches (derivative c r) s.
Proof.
  induction 1 as [ | p c' Hp | r1 r2 s1 s2 H1 IH1 H2 IH2 | r1 r2 s0 H IH | r1 r2 s0 H IH
                 | r | r s1 s2 H1 IH1 H2 IH2 ]; intros c s Heq; simpl.
  - done.
  - injection Heq as -> <-. rewrite Hp. constructor.
  - apply append_eq_cons in Heq as [[-> ->] | (s1' & -> & ->)].
    + apply nullable_matches in H1 as ->. apply matches_alt_r. by apply IH2.
    + destruct (nullable r1); [ apply matches_alt_l | ]; constructor; auto.
  - apply matches_alt_l. by apply IH.
  - apply matches_alt_r. by apply IH.
  - done.
  - apply append_eq_cons in Heq as [[-> ->] | (s1' & -> & ->)].
    + by apply IH2.
    + constructor; auto.
Qed.

(** The derivative test decides the language of the pattern. *)
Lemma RegExp_test_matches (r : regex) (s : string) :
  RegExp_test r s = true ↔ matches r s.
Proof.
  revert r. induction s as [ | c s IH ]; intros r; simpl.
  - apply nullable_matches.
  - rewrite IH. split; [ apply derivative_sound | ].
    intros H. by eapply derivative_complete.
Qed.

Lemma matches_star_class (p : ascii → bool) (s : string) :
  matches (ReStar (ReClass p)) s ↔ all_chars p s = true.
Proof.
  split.
  - intros H. remember (ReStar (ReClass p)) as r eqn:Hr.
    induction H as [ | | | | | | r s1 s2 H1 _ _ IH2 ]; try done.
    injection Hr as ->. inversion H1; subst. rewrite append_cons, append_nil_l.
    simpl. by rewrite IH2, andb_true_r.
  - induction s as [ | c s IH ]; simpl; [ constructor | ].
    intros [Hc Hs]%andb_prop. change (String c s) with (String c "" +:+ s).
    constructor; [ by constructor | auto ].
Qed.

Lemma matches_plus_class (p : ascii → bool) (s : string) :
  matches (RePlus (ReClass p)) s ↔ s ≠ "" ∧ all_chars p s = true.
Proof.
  unfold RePlus. split.
  - intros H. inversion H as [ | | ? ? s1 s2 H1 H2 | | | | ]; subst.
    inversion H1; subst. apply matches_star_class in H2.
    rewrite append_cons, append_nil_l. simpl. split; [ done | ].
    by rewrite H2, andb_true_r.
  - intros [Hne Hall]. destruct s as [ | c s ]; [ done | ]. simpl in Hall.
    apply andb_prop in Hall as [Hc Hs]. change (String c s) with (String c "" +:+ s).
    constructor; [ by constructor | by apply matches_star_class ].
Qed.

Lemma matches_seq_inv (r1 r2 : regex) (s : string) :
  matches (ReSeq r1 r2) s ↔ ∃ s1 s2, s = s1 +:+ s2 ∧ matches r1 s1 ∧ matches r2 s2.
Proof.
  split.
  - intros H. inversion H; subst. eauto.
  - intros (s1 & s2 & -> & H1 & H2). by constructor.
Qed.

Lemma matches_char (c : ascii) (s : string) :
  matches (ReClass (Ascii.eqb c)) s ↔ s = String c "".
Proof.
  split.
  - intros H. inversion H as [ | ? c' Hc | | | | | ]; subst. by apply Ascii.eqb_eq in Hc as ->.
  - intros ->. constructor. apply Ascii.eqb_refl.
Qed.

(** The e-mail pattern accepts exactly the strings [a@b.c] with [a],
    [b] and [c] not empty and free of white space and of [@]. *)
Lemma emailRegex_accepts (s : string) :
  RegExp_test emailRegex s = true ↔
  ∃ a b c,
    s = a +:+ "@" +:+ b +:+ "." +:+ c ∧
    (a ≠ "" ∧ all_chars not_space_or_at a = true) ∧
    (b ≠ "" ∧ all_chars not_space_or_at b = true) ∧
    (c ≠ "" ∧ all_chars not_space_or_at c = true).
Proof.
  rewrite RegExp_test_matches. unfold emailRegex. split.
  - intros H.
    apply matches_seq_inv in H as (a & ? & -> & Ha%matches_plus_class & H).
    apply matches_seq_inv in H as (? & ? & -> & ->%matches_char & H).
    apply matches_seq_inv in H as (b & ? & -> & Hb%matches_plus_class & H).
    apply matches_seq_inv in H as (? & c & -> & ->%matches_char & Hc%matches_plus_class).
    by exists a, b, c.
  - intros (a & b & c & -> & Ha & Hb & Hc).
    repeat (apply matches_seq; [ first [ by apply matches_plus_class | by apply matches_char ] | ]).
    by apply matches_plus_class.
Qed.

(** ** The primitives of the mock store *)

Lemma getItem_lookup (w : world) (key : string) :
  localStorage.getItem key w =
  (Ret (js_or (default VUndefined (storage w !! key)) VNull), w).
Proof. reflexivity. Qed.

(** X1: what [getItem] reads after [setItem] stored [value] under the
    key is [value] when it is truthy and null otherwise; the other keys
    read as before. *)
Theorem getItem_after_setItem (w : world) (key : string) (value : val) :
  let w' := (localStorage.setItem key value w).2 in
  localStorage.getItem key w' = (Ret (if ToBoolean value then value else VNull), w') ∧
  ∀ key', key' ≠ key →
    (localStorage.getItem key' w').1 = (localStorage.getItem key' w).1.
Proof.
  intros w'. split.
  - rewrite getItem_lookup. subst w'. cbn [snd localStorage.setItem storage].
    by rewrite lookup_insert_eq.
  - intros key' Hne. rewrite !getItem_lookup. subst w'.
    cbn [snd fst localStorage.setItem storage]. by rewrite lookup_insert_ne.
Qed.

(** X2: after [removeItem] the key reads null, the other keys read as
    before, and removing a key that is not stored changes nothing; the
    repository reads null once its key is removed. *)
Theorem getItem_after_removeItem (w : world) (key : string) :
  let w' := (localStorage.removeItem key w).2 in
  localStorage.getItem key w' = (Ret VNull, w') ∧
  (∀ key', key' ≠ key →
     (localStorage.getItem key' w').1 = (localStorage.getItem key' w).1) ∧
  (storage w !! key = None → w' = w) ∧
  (key = "LSuserDetails" → UserRepositoryService.getAllUsers w' = (Ret VNull, w')).
Proof.
  intros w'.
  assert (Hget : localStorage.getItem key w' = (Ret VNull, w')).
  { rewrite getItem_lookup. subst w'. cbn [snd localStorage.removeItem storage].
    by rewrite lookup_delete_eq. }
  split; [ done | ]. split; [ | split ].
  - intros key' Hne. rewrite !getItem_lookup. subst w'.
    cbn [snd fst localStorage.removeItem storage]. by rewrite lookup_delete_ne.
  - intros Hnone. subst w'. cbn [snd localStorage.removeItem].
    rewrite delete_id by done. by destruct w.
  - by intros ->.
Qed.

(** After [clear] every key reads null, the repository's too, and the
    heap is as it was. *)
Lemma getItem_after_clear (w : world) (key : string) :
  let w' := (localStorage.clear w).2 in
  localStorage.getItem key w' = (Ret VNull, w') ∧
  UserRepositoryService.getAllUsers w' = (Ret VNull, w') ∧
  heap w' = heap w.
Proof. done. Qed.

(** X3: whatever [saveUser] returns, it leaves the heap as it was, the
    record included, and touches no key of the store but its own. *)
Theorem saveUser_frame (w : world) (R : val) :
  let w' := (UserRepositoryService.saveUser R w).2 in
  heap w' = heap w ∧
  ∀ key, key ≠ "LSuserDetails" → storage w' !! key = storage w !! key.
Proof.
  intros w'. subst w'. rewrite saveUser_unfold.
  destruct (JSON_stringify (heap w) R) as [ [ s | ] | e | ]; cbn [snd heap storage];
    (split; [ done | ]); intros key Hne; by rewrite ?lookup_insert_ne.
Qed.

(** X4: [getItem] returns null or a truthy value: never [undefined],
    the empty string, zero, [NaN] or false, even when one is stored. *)
Theorem getItem_null_or_truthy (w : world) (key : string) :
  ∃ v, localStorage.getItem key w = (Ret v, w) ∧ (v = VNull ∨ ToBoolean v = true).
Proof.
  rewrite getItem_lookup. eexists. split; [ reflexivity | ].
  unfold js_or. destruct (ToBoolean _) eqn:Htruthy; auto.
Qed.

(** ** UserService *)

Lemma findIndex_none {A : Type} (p : A → bool) (l : list A) :
  findIndex p l = None ↔ Forall (λ x, p x = false) l.
Proof.
  induction l as [ | x l IH ]; simpl.
  - split; [ constructor | done ].
  - destruct (p x) eqn:Hp.
    + split; [ done | ]. intros [Hx _]%Forall_cons. congruence.
    + rewrite fmap_None, IH. split; [ by constructor | by intros [_ ?]%Forall_cons ].
Qed.

Lemma findIndex_first {A : Type} (p : A → bool) (before after : list A) (x : A) :
  Forall (λ y, p y = false) before → p x = true →
  findIndex p (before ++ x :: after) = Some (length before).
Proof.
  intros Hbefore Hx. induction Hbefore as [ | y before Hy _ IH ]; simpl.
  - by rewrite Hx.
  - by rewrite Hy, IH.
Qed.

Section UserService_facts.
Context {E : Type} (console_log : string → E → E).

(** X5: the users a filtered read returns after [addUser] are those it
    returned before, followed by the new user when the user was
    accepted and passes the filter; a user is accepted unless a
    validation callback is given and refuses. *)
Theorem getUsers_after_addUser
    (user : User.t) (validationCallback filterCallback : option (User.t → bool))
    (this : @UserService.t E) (e : E) :
  let result := UserService.addUser console_log user validationCallback this e in
  let accepted := result.1.1 in
  let passes := from_option (λ keep, keep user) true filterCallback in
  accepted = from_option (λ validate, validate user) true validationCallback ∧
  UserService.getUsers filterCallback result.1.2 =
    (UserService.getUsers filterCallback this
     ++ (if accepted && passes then [user] else []))%list.
Proof.
  unfold UserService.addUser.
  destruct validationCallback as [ validate | ]; cbn [from_option];
    [ destruct (validate user); cbn [negb] | ];
    cbn [fst snd]; (split; [ done | ]);
    destruct filterCallback as [ keep | ];
    cbn [UserService.getUsers UserService.users from_option andb];
    rewrite ?List.filter_app, ?app_nil_r; try done;
    simpl; by destruct (keep user).
Qed.

(** X6: a listener runs after the listeners registered before it for
    the same event, once per event, and not for another event. *)
Theorem addUser_notifies_in_order
    (user : User.t) (callback : UserService.UserCallback) (event : string)
    (this : @UserService.t E) (e : E) :
  let registered := UserService.onUserEvent event callback this in
  (UserService.addUser console_log user None registered e).2 =
    if String.eqb event "user-added"
    then callback user (UserService.addUser console_log user None this e).2
    else (UserService.addUser console_log user None this e).2.
Proof.
  unfold UserService.addUser, UserService.notifyEvent, UserService.onUserEvent.
  cbn [snd UserService.eventCallbacks UserService.users].
  destruct (String.eqb_spec event "user-added") as [-> | Hne].
  - rewrite lookup_insert_eq.
    destruct (UserService.eventCallbacks this !! "user-added") as [ callbacks | ];
      cbn [from_option]; by rewrite ?fold_left_app.
  - by rewrite lookup_insert_ne.
Qed.

Lemma updateUser_not_found
    (userId : string) (transformCallback : User.t → User.t) (this : @UserService.t E) (e : E) :
  Forall (λ u, User.id u ≠ userId) (UserService.users this) →
  UserService.updateUser userId transformCallback this e = (false, this, e).
Proof.
  intros Hnone. unfold UserService.updateUser.
  rewrite (proj2 (findIndex_none _ _)); [ done | ].
  eapply Forall_impl; [ exact Hnone | ]. intros u Hu. by apply String.eqb_neq.
Qed.

Lemma updateUser_found
    (userId : string) (transformCallback : User.t → User.t) (this : @UserService.t E) (e : E)
    (before : list User.t) (user : User.t) (after : list User.t) :
  UserService.users this = (before ++ user :: after)%list →
  Forall (λ u, User.id u ≠ userId) before → User.id user = userId →
  UserService.updateUser userId transformCallback this e =
    (true,
     UserService.Build (before ++ transformCallback user :: after)%list
                       (UserService.eventCallbacks this),
     UserService.notifyEvent "user-updated" (transformCallback user)
       (UserService.Build (before ++ transformCallback user :: after)%list
                          (UserService.eventCallbacks this)) e).
Proof.
  intros Husers Hbefore Hid. unfold UserService.updateUser.
  rewrite Husers, (findIndex_first _ before after user).
  - rewrite list_lookup_middle by done. cbn zeta.
    by rewrite insert_app_r_alt, Nat.sub_diag by done.
  - eapply Forall_impl; [ exact Hbefore | ]. intros u Hu. by apply String.eqb_neq.
  - by apply String.eqb_eq.
Qed.

Lemma deleteUser_not_found
    (userId : string) (confirmationCallback : option (User.t → bool))
    (this : @UserService.t E) (e : E) :
  Forall (λ u, User.id u ≠ userId) (UserService.users this) →
  UserService.deleteUser console_log userId confirmationCallback this e = (false, this, e).
Proof.
  intros Hnone. unfold UserService.deleteUser.
  rewrite (proj2 (findIndex_none _ _)); [ done | ].
  eapply Forall_impl; [ exact Hnone | ]. intros u Hu. by apply String.eqb_neq.
Qed.

Lemma deleteUser_found
    (userId : string) (confirmationCallback : option (User.t → bool))
    (this : @UserService.t E) (e : E)
    (before : list User.t) (user : User.t) (after : list User.t) :
  UserService.users this = (before ++ user :: after)%list →
  Forall (λ u, User.id u ≠ userId) before → User.id user = userId →
  UserService.deleteUser console_log userId confirmationCallback this e =
    if from_option (λ confirm, confirm user) true confirmationCallback
    then (true,
          UserService.Build (before ++ after)%list (UserService.eventCallbacks this),
          UserService.notifyEvent "user-deleted" user
            (UserService.Build (before ++ after)%list (UserService.eventCallbacks this)) e)
    else (false, this,
          console_log ("Deletion of user " +:+ User.name user +:+ " was cancelled") e).
Proof.
  intros Husers Hbefore Hid. unfold UserService.deleteUser.
  rewrite Husers, (findIndex_first _ before after user).
  - rewrite list_lookup_middle by done. cbn zeta.
    destruct confirmationCallback as [ confirm | ]; cbn [from_option];
      [ destruct (confirm user); cbn [negb] | ]; try done.
    all: by rewrite delete_middle.
  - eapply Forall_impl; [ exact Hbefore | ]. intros u Hu. by apply String.eqb_neq.
  - by apply String.eqb_eq.
Qed.

(** X7: [updateUser] returns false and changes nothing when no user
    has the id; otherwise it replaces the first user with the id by its
    transform, in place, notifies the listeners of "user-updated" with
    the new user, and returns true. *)
Theorem updateUser_first_match
    (userId : string) (transformCallback : User.t → User.t) (this : @UserService.t E) (e : E) :
  (Forall (λ u, User.id u ≠ userId) (UserService.users this) →
   UserService.updateUser userId transformCallback this e = (false, this, e)) ∧
  (∀ before user after,
     UserService.users this = (before ++ user :: after)%list →
     Forall (λ u, User.id u ≠ userId) before → User.id user = userId →
     UserService.updateUser userId transformCallback this e =
       (true,
        UserService.Build (before ++ transformCallback user :: after)%list
                          (UserService.eventCallbacks this),
        UserService.notifyEvent "user-updated" (transformCallback user)
          (UserService.Build (before ++ transformCallback user :: after)%list
                             (UserService.eventCallbacks this)) e)).
Proof.
  split; [ apply updateUser_not_found | ].
  intros before user after. apply updateUser_found.
Qed.

(** X8: [deleteUser] removes the first user with the id and no other,
    notifies the listeners of "user-deleted" and returns true, unless
    the confirmation callback refuses: then it returns false and
    nothing changes; it returns false too when no user has the id. *)
Theorem deleteUser_first_match
    (userId : string) (confirmationCallback : option (User.t → bool))
    (this : @UserService.t E) (e : E) :
  (Forall (λ u, User.id u ≠ userId) (UserService.users this) →
   UserService.deleteUser console_log userId confirmationCallback this e = (false, this, e)) ∧
  (∀ before user after,
     UserService.users this = (before ++ user :: after)%list →
     Forall (λ u, User.id u ≠ userId) before → User.id user = userId →
     UserService.deleteUser console_log userId confirmationCallback this e =
       if from_option (λ confirm, confirm user) true confirmationCallback
       then (true,
             UserService.Build (before ++ after)%list (UserService.eventCallbacks this),
             UserService.notifyEvent "user-deleted" user
               (UserService.Build (before ++ after)%list (UserService.eventCallbacks this)) e)
       else (false, this,
             console_log ("Deletion of user " +:+ User.name user +:+ " was cancelled") e)).
Proof.
  split; [ apply deleteUser_not_found | ].
  intros before user after. apply deleteUser_found.
Qed.

(** X9: adding a user and deleting the user's id gives back the list
    of users when no user had that id; when one had, it is the older
    user that goes and the new one that stays, for [addUser] does not
    look at the ids. *)
Theorem deleteUser_after_addUser (user : User.t) (this : @UserService.t E) (e e' : E) :
  let added := (UserService.addUser console_log user None this e).1.2 in
  let deleted := (UserService.deleteUser console_log (User.id user) None added e').1.2 in
  (Forall (λ u, User.id u ≠ User.id user) (UserService.users this) →
   UserService.users deleted = UserService.users this) ∧
  (∀ before older after,
     UserService.users this = (before ++ older :: after)%list →
     Forall (λ u, User.id u ≠ User.id user) before → User.id older = User.id user →
     UserService.users deleted = (before ++ after ++ [user])%list).
Proof.
  intros added deleted. split.
  - intros Hfresh. subst deleted.
    rewrite (deleteUser_found (User.id user) None added e' (UserService.users this) user []);
      [ | done | done | done ].
    cbn. by rewrite app_nil_r.
  - intros before older after Husers Hbefore Hid. subst deleted.
    rewrite (deleteUser_found (User.id user) None added e' before older (after ++ [user])%list);
      [ done | | done | done ].
    subst added. cbn. by rewrite Husers, <- app_assoc.
Qed.

End UserService_facts.

(** ** memoize *)

Lemma SerializeJSONProperty_bigint
    (fuel : nat) (h : gmap loc object) (stack : list loc) (z : Z) :
  SerializeJSONProperty fuel h stack (VBigInt z) = Throw TypeError.
Proof. by destruct fuel. Qed.

Section memoize_facts.
Context {E : Type} (console_log : string → E → E).

(** X10: a call whose key is the key of the call before it returns the
    result of that call and leaves the cache as it is; the wrapped
    function is not run again, the only effect is the line of the
    cache hit.  Arguments with the same JSON text share a key. *)
Theorem memoize_same_key
    (fn : list val → E → val * E) (keyGenerator : option (list val → string))
    (h : gmap loc object) (args1 args2 : list val) (key : string)
    (cache : gmap string val) (e : E) :
  memoize_key keyGenerator h args1 = Ret key →
  memoize_key keyGenerator h args2 = Ret key →
  let first := memoize console_log fn keyGenerator h args1 cache e in
  let second := memoize console_log fn keyGenerator h args2 first.1.2 first.2 in
  second.1.1 = first.1.1 ∧
  second.1.2 = first.1.2 ∧
  second.2 = console_log ("Cache hit for key: " +:+ key) first.2.
Proof.
  intros Hkey1 Hkey2. unfold memoize. rewrite Hkey1, Hkey2.
  destruct (cache !! key) as [ result | ] eqn:Hcache.
  - cbn [fst snd]. by rewrite Hcache.
  - destruct (fn args1 e) as [result e1]. cbn [fst snd]. by rewrite lookup_insert_eq.
Qed.

(** X11: with the default key, a call whose first argument is a BigInt
    throws a TypeError: the wrapped function is not run and nothing is
    cached. *)
Theorem memoize_bigint_throws
    (fn : list val → E → val * E) (h : gmap loc object) (z : Z) (rest : list val)
    (cache : gmap string val) (e : E) :
  memoize console_log fn None h (VBigInt z :: rest) cache e = (Throw TypeError, cache, e).
Proof.
  unfold memoize, memoize_key, stringify_args, JSON_stringify.
  cbn [SerializeJSONProperty]. rewrite lookup_insert_eq.
  rewrite bool_decide_eq_false_2 by apply not_elem_of_nil.
  cbn [SerializeJSONArray_elements]. by rewrite SerializeJSONProperty_bigint.
Qed.

End memoize_facts.

(** ** rateLimit *)

Lemma drop_expired_length (threshold : Z) (calls : list Z) :
  (length (drop_expired threshold calls) ≤ length calls)%nat.
Proof.
  induction calls as [ | first rest IH ]; simpl; [ done | ].
  destruct (first <=? threshold)%Z; simpl; lia.
Qed.

Lemma drop_expired_sorted (threshold : Z) (calls : list Z) :
  StronglySorted Z.le calls →
  drop_expired threshold calls = List.filter (λ t, (threshold <? t)%Z) calls.
Proof.
  induction 1 as [ | first rest Hrest IH Hfirst ]; simpl; [ done | ].
  destruct (Z.leb_spec first threshold) as [Hle | Hgt].
  - rewrite IH. destruct (Z.ltb_spec threshold first); [ lia | done ].
  - destruct (Z.ltb_spec threshold first); [ | lia ]. f_equal.
    symmetry. apply forallb_filter_id. apply forallb_forall.
    intros t Ht. apply Z.ltb_lt.
    rewrite Forall_forall in Hfirst. specialize (Hfirst t).
    assert (first <= t) by (apply Hfirst; by apply list_elem_of_In). lia.
Qed.

(** ** Numbers compared *)

Lemma number_Q_int (z : Z) : number_Q (NInt z) = Some (inject_Z z).
Proof. reflexivity. Qed.

(** On finite numbers [number_leb] is the order of their values. *)
Lemma number_leb_Q (a b : number) (qa qb : Q) :
  number_Q a = Some qa → number_Q b = Some qb →
  number_leb a b = true ↔ (qa <= qb)%Q.
Proof.
  unfold number_Q. intros Ha Hb.
  assert (Hleb : number_leb a b =
            match number_fraction a, number_fraction b with
            | Some (x, d), Some (y, d') => (x * Z.pos d' <=? y * Z.pos d)%Z
            | _, _ => false
            end).
  { destruct a as [ x | | [] | | neg s e ]; try done;
      destruct b as [ y | | [] | | neg' s' e' ]; done. }
  rewrite Hleb.
  destruct (number_fraction a) as [ [x d] | ]; [ | done ].
  destruct (number_fraction b) as [ [y d'] | ]; [ | done ].
  injection Ha as <-. injection Hb as <-.
  unfold Qle. cbn [Qnum Qden]. apply Z.leb_le.
Qed.

(** A number that is not above a whole number is not above the
    greater ones. *)
Lemma number_leb_int_le (a : number) (y y' : Z) :
  number_leb a (NInt y) = true → y <= y' → number_leb a (NInt y') = true.
Proof.
  intros Hle Hy.
  destruct (number_Q a) as [ q | ] eqn:Hq.
  - apply (number_leb_Q _ _ q (inject_Z y) Hq (number_Q_int y)) in Hle.
    apply (number_leb_Q _ _ q (inject_Z y') Hq (number_Q_int y')).
    apply (Qle_trans _ (inject_Z y)); [ exact Hle | by rewrite <- Zle_Qle ].
  - by destruct a as [ x | | [] | | neg s e ].
Qed.

Section rateLimit_facts.
Context {E : Type} (console_log : string → E → E).

Lemma rateLimit_run_held
    (fn : list val → E → val * E) (maxCalls : number) (timeWindow : Z) (clock : list Z) :
  ∀ calls e,
    (calls = [] ∨ number_geb (NInt (Z.of_nat (length calls) - 1)) maxCalls = false) →
    let held := (rateLimit_run console_log fn maxCalls timeWindow clock calls e).1 in
    held = [] ∨ number_geb (NInt (Z.of_nat (length held) - 1)) maxCalls = false.
Proof.
  induction clock as [ | now later IH ]; intros calls e Hcalls; [ done | ].
  cbn [rateLimit_run]. unfold rateLimit.
  pose proof (drop_expired_length (now - timeWindow) calls) as Hdrop.
  set (recent := drop_expired (now - timeWindow) calls) in *.
  destruct (number_geb (NInt (Z.of_nat (length recent))) maxCalls) eqn:Hfull.
  - apply IH. destruct Hcalls as [-> | Hcalls]; [ by left | ].
    destruct recent as [ | t recent ]; [ by left | right ].
    destruct (number_geb (NInt (Z.of_nat (length (t :: recent)) - 1)) maxCalls) eqn:Hge;
      [ | done ].
    rewrite <- Hcalls. unfold number_geb in *. symmetry.
    apply (number_leb_int_le _ _ _ Hge). lia.
  - destruct (fn [] e) as [result e1]. apply IH. right.
    rewrite length_app. simpl.
    by replace (Z.of_nat (length recent + 1) - 1) with (Z.of_nat (length recent)) by lia.
Qed.

(** X12: the limited function stops taking time stamps once it holds
    [maxCalls] of them or more.  Started with none, after any calls at
    any readings of the clock the number it holds, less one, is below
    [maxCalls]: for a whole [maxCalls] it holds at most [maxCalls] (none
    when [maxCalls] is negative), and for [maxCalls = 2.5] at most
    three.  For [maxCalls = NaN] this is no bound. *)
Theorem rateLimit_run_bound
    (fn : list val → E → val * E) (maxCalls : number) (timeWindow : Z)
    (clock : list Z) (e : E) :
  let held :=
    Z.of_nat (length (rateLimit_run console_log fn maxCalls timeWindow clock [] e).1) in
  (held = 0 ∨ number_geb (NInt (held - 1)) maxCalls = false) ∧
  (∀ q, number_Q maxCalls = Some q → held = 0 ∨ (inject_Z (held - 1) < q)%Q) ∧
  (∀ m, maxCalls = NInt m → held <= Z.max 0 m).
Proof.
  intros held.
  assert (Hheld : held = 0 ∨ number_geb (NInt (held - 1)) maxCalls = false).
  { subst held.
    destruct (rateLimit_run_held fn maxCalls timeWindow clock [] e) as [-> | H];
      [ by left | by left | by right ]. }
  split; [ exact Hheld | ].
  assert (HQ : ∀ q, number_Q maxCalls = Some q → held = 0 ∨ (inject_Z (held - 1) < q)%Q).
  { intros q Hq. destruct Hheld as [ | Hheld ]; [ by left | right ].
    apply Qnot_le_lt. intros Hle.
    apply (number_leb_Q maxCalls (NInt (held - 1)) _ _ Hq (number_Q_int _)) in Hle.
    unfold number_geb in Hheld. congruence. }
  split; [ exact HQ | ].
  intros m ->. destruct (HQ _ (number_Q_int m)) as [ | Hlt ]; [ lia | ].
  rewrite <- Zlt_Qlt in Hlt. lia.
Qed.

(** X13: with [maxCalls] zero or negative every call is skipped: the
    wrapped function is not run, the call returns [undefined] and
    writes the line of the skipped call. *)
Theorem rateLimit_never_passes
    (fn : list val → E → val * E) (maxCalls : number) (timeWindow now : Z)
    (args : list val) (calls : list Z) (e : E) :
  number_leb maxCalls (NInt 0) = true →
  rateLimit console_log fn maxCalls timeWindow now args calls e =
    (VUndefined, drop_expired (now - timeWindow) calls,
     console_log "Rate limit exceeded, skipping call" e).
Proof.
  intros Hmax. unfold rateLimit, number_geb.
  rewrite (number_leb_int_le maxCalls 0 _ Hmax); [ done | lia ].
Qed.

(** X14: under a clock that does not go back, with a window of a
    positive whole number of milliseconds: the time stamps kept are
    those younger than the window; the call is skipped exactly when
    their number is [maxCalls] or more, in the order of numbers, so
    never when [maxCalls] is [NaN], and is let through otherwise, its
    time stamp added; the time stamps held afterwards are in order,
    none older than the window, none later than now, and at most
    [maxCalls] after a call that went through when [maxCalls] is
    whole. *)
Theorem rateLimit_window
    (fn : list val → E → val * E) (maxCalls : number) (timeWindow now : Z)
    (args : list val) (calls : list Z) (e : E) :
  0 < timeWindow → StronglySorted Z.le calls → Forall (λ t, t <= now) calls →
  let recent := List.filter (λ t, (now - timeWindow <? t)%Z) calls in
  let result := rateLimit console_log fn maxCalls timeWindow now args calls e in
  let skipped := number_geb (NInt (Z.of_nat (length recent))) maxCalls in
  result = (if skipped
            then (VUndefined, recent, console_log "Rate limit exceeded, skipping call" e)
            else ((fn args e).1, (recent ++ [now])%list, (fn args e).2)) ∧
  (∀ q, number_Q maxCalls = Some q →
        skipped = true ↔ (q <= inject_Z (Z.of_nat (length recent)))%Q) ∧
  (maxCalls = NNaN → skipped = false) ∧
  (∀ m, maxCalls = NInt m → skipped = false → Z.of_nat (length result.1.2) <= m) ∧
  StronglySorted Z.le result.1.2 ∧
  Forall (λ t, now - timeWindow < t <= now) result.1.2.
Proof.
  intros Hwindow Hsorted Hpast recent result skipped.
  assert (Hrecent_sorted : StronglySorted Z.le recent).
  { subst recent. clear Hpast. induction Hsorted as [ | t rest Hrest IH Ht ]; simpl;
      [ constructor | ].
    destruct (now - timeWindow <? t)%Z; [ | done ].
    constructor; [ done | ]. apply Forall_forall.
    intros x [Hx _]%list_elem_of_In%filter_In.
    rewrite Forall_forall in Ht. by apply Ht, list_elem_of_In. }
  assert (Hrecent_in : Forall (λ t, now - timeWindow < t <= now) recent).
  { subst recent. apply Forall_forall. intros t [Ht Hyoung]%list_elem_of_In%filter_In.
    apply Z.ltb_lt in Hyoung. rewrite Forall_forall in Hpast.
    split; [ done | ]. by apply Hpast, list_elem_of_In. }
  assert (Hresult : result =
            (if skipped
             then (VUndefined, recent, console_log "Rate limit exceeded, skipping call" e)
             else ((fn args e).1, (recent ++ [now])%list, (fn args e).2))).
  { subst result skipped. unfold rateLimit.
    rewrite (drop_expired_sorted _ _ Hsorted). fold recent.
    destruct (number_geb _ maxCalls); [ done | by destruct (fn args e) ]. }
  assert (HQ : ∀ q, number_Q maxCalls = Some q →
            skipped = true ↔ (q <= inject_Z (Z.of_nat (length recent)))%Q).
  { intros q Hq. subst skipped. unfold number_geb.
    apply (number_leb_Q _ _ _ _ Hq (number_Q_int _)). }
  split; [ exact Hresult | ]. split; [ exact HQ | ].
  split; [ by intros -> | ]. split.
  - intros m -> Hpassed. rewrite Hresult, Hpassed. cbn [fst snd].
    rewrite length_app. simpl.
    destruct (Z_le_gt_dec m (Z.of_nat (length recent))) as [Hle | Hgt]; [ | lia ].
    rewrite Zle_Qle in Hle. apply (HQ _ (number_Q_int m)) in Hle. congruence.
  - rewrite Hresult. destruct skipped; cbn [fst snd]; [ done | ]. split.
    + clear Hresult HQ. induction Hrecent_sorted as [ | t rest Hrest IH Ht ]; simpl.
      * repeat constructor.
      * apply Forall_cons in Hrecent_in as [Htin Hrest_in].
        constructor; [ by apply IH | ].
        apply Forall_app. split; [ done | ]. constructor; [ lia | constructor ].
    + apply Forall_app. split; [ done | ]. constructor; [ lia | constructor ].
Qed.

End rateLimit_facts.

(** ** The user filters *)

(** X15: with finite bounds the age filter accepts exactly the users
    whose age is a finite number from [minAge] to [maxAge], both
    included, in the order of numbers, whole or not: so no age when
    [maxAge < minAge], and never [NaN] or an infinity; the age
    validation is the filter for the bounds it is given, and for 13 to
    120 without arguments. *)
Theorem createAgeFilter_accepts (minAge maxAge : number) (lo hi : Q) (user : User.t) :
  number_Q minAge = Some lo → number_Q maxAge = Some hi →
  (createAgeFilter minAge maxAge user = true ↔
   ∃ age, number_Q (User.age user) = Some age ∧ (lo <= age)%Q ∧ (age <= hi)%Q) ∧
  createAgeValidation None None user = createAgeFilter (NInt 13) (NInt 120) user ∧
  createAgeValidation (Some minAge) (Some maxAge) user = createAgeFilter minAge maxAge user.
Proof.
  intros Hlo Hhi. split; [ | done ]. unfold createAgeFilter, number_geb.
  rewrite andb_true_iff.
  destruct (number_Q (User.age user)) as [ age | ] eqn:Hage.
  - rewrite (number_leb_Q _ _ _ _ Hlo Hage), (number_leb_Q _ _ _ _ Hage Hhi). split.
    + intros [Hge Hle]. by exists age.
    + by intros (age' & [= <-] & Hge & Hle).
  - split; [ | by intros (age & ? & _) ]. intros [Hge Hle]. exfalso.
    destruct (User.age user) as [ x | | [] | | neg s e ]; try done;
      destruct minAge as [ | | [] | | ]; try done;
      destruct maxAge as [ | | [] | | ]; done.
Qed.

Lemma prefix_append (term s : string) :
  String.prefix term s = true ↔ ∃ rest, s = term +:+ rest.
Proof.
  revert s. induction term as [ | c term IH ]; intros s.
  - split; [ intros _; by exists s | by destruct s ].
  - destruct s as [ | c' s ]; simpl.
    + split; [ done | ]. intros [rest Hrest]. by rewrite append_cons in Hrest.
    + destruct (ascii_dec c c') as [-> | Hne].
      * rewrite IH. split; intros [rest Hrest]; exists rest.
        -- by rewrite append_cons, Hrest.
        -- rewrite append_cons in Hrest. by injection Hrest.
      * split; [ done | ]. intros [rest Hrest]. rewrite append_cons in Hrest. congruence.
Qed.

(** [includes] finds the term exactly when it is a substring. *)
Lemma includes_substring (s term : string) :
  includes s term = true ↔ ∃ before after, s = before +:+ term +:+ after.
Proof.
  induction s as [ | c s IH ].
  - cbn [includes]. rewrite orb_false_r, prefix_append. split.
    + intros [rest ->]. by exists "", rest.
    + intros (before & after & H). symmetry in H.
      apply append_eq_nil in H as [-> H]. exists after. by rewrite H.
  - cbn [includes]. rewrite orb_true_iff, prefix_append, IH. split.
    + intros [[rest ->] | (before & after & ->)].
      * by exists "", rest.
      * exists (String c before), after. by rewrite append_cons.
    + intros (before & after & H). destruct before as [ | c' before ].
      * left. exists after. by rewrite append_nil_l in H.
      * right. rewrite append_cons in H. injection H as -> ->. by exists before, after.
Qed.

(** X16: the search filter accepts a user exactly when the term, in
    lower case, is a substring of the name or of the e-mail in lower
    case; the empty term accepts every user. *)
Theorem createSearchFilter_accepts (searchTerm : string) (user : User.t) :
  (createSearchFilter searchTerm user = true ↔
   ∃ before after,
     toLowerCase (User.name user) = before +:+ toLowerCase searchTerm +:+ after ∨
     toLowerCase (User.email user) = before +:+ toLowerCase searchTerm +:+ after) ∧
  createSearchFilter "" user = true.
Proof.
  split.
  - unfold createSearchFilter. rewrite orb_true_iff, !includes_substring. split.
    + intros [(before & after & H) | (before & after & H)]; exists before, after; auto.
    + intros (before & after & [H | H]); [ left | right ]; by exists before, after.
  - unfold createSearchFilter. apply orb_true_iff. left.
    apply includes_substring. by exists "", (toLowerCase (User.name user)).
Qed.

(** ** Dictionaries and ConfigManager *)

Section dictionary_facts.
Context (inherited : gmap string val).

(** X17: what [addToDictionary] stored under a key is what
    [getFromDictionary] reads there, whatever the key; the other keys
    read as in the dictionary given, which [createDictionary] copies;
    a key that is neither stored nor inherited reads [undefined]. *)
Theorem getFromDictionary_after_add (dict : gmap string val) (key : string) (value : val) :
  getFromDictionary inherited (addToDictionary dict key value) key = value ∧
  (∀ key', key' ≠ key →
     getFromDictionary inherited (addToDictionary dict key value) key'
     = getFromDictionary inherited dict key') ∧
  (∀ key', getFromDictionary inherited (createDictionary dict) key'
           = getFromDictionary inherited dict key') ∧
  (∀ key', dict !! key' = None → inherited !! key' = None →
           getFromDictionary inherited dict key' = VUndefined).
Proof.
  unfold getFromDictionary, get_property, addToDictionary, createDictionary.
  split; [ by rewrite lookup_insert_eq | ]. split; [ | split ].
  - intros key' Hne. by rewrite lookup_insert_ne.
  - done.
  - by intros key' -> ->.
Qed.

(** X18: after [set], [get] returns the value and [has] is true, also
    when the value is [undefined]; the other keys are as before. *)
Theorem ConfigManager_get_after_set (key : string) (value : val) (this : ConfigManager.t) :
  key ≠ "__proto__" →
  ∃ this',
    ConfigManager.set key value this = Some this' ∧
    ConfigManager.get inherited key this' = value ∧
    ConfigManager.has inherited key this' = true ∧
    ∀ key', key' ≠ key →
      ConfigManager.get inherited key' this' = ConfigManager.get inherited key' this ∧
      ConfigManager.has inherited key' this' = ConfigManager.has inherited key' this.
Proof.
  intros Hkey. unfold ConfigManager.set.
  destruct (String.eqb_spec key "__proto__") as [ | _ ]; [ done | ].
  eexists. split; [ reflexivity | ].
  unfold ConfigManager.get, ConfigManager.has, get_property, has_property.
  cbn [ConfigManager.config]. rewrite lookup_insert_eq.
  split; [ done | ]. split.
  - rewrite bool_decide_eq_true_2; [ done | by eexists ].
  - intros key' Hne. by rewrite lookup_insert_ne.
Qed.

(** X19: [delete] returns what [has] answered; afterwards the key is no
    longer an own property, so [get] and [has] answer from what is
    inherited: an inherited key is deleted with true and is still
    there, and a key that is not there is deleted with false and the
    manager is unchanged. *)
Theorem ConfigManager_delete (key : string) (this : ConfigManager.t) :
  let result := ConfigManager.delete inherited key this in
  result.1 = ConfigManager.has inherited key this ∧
  ConfigManager.get inherited key result.2 = default VUndefined (inherited !! key) ∧
  ConfigManager.has inherited key result.2 = bool_decide (is_Some (inherited !! key)) ∧
  (ConfigManager.has inherited key this = false → result.2 = this) ∧
  ∀ key', key' ≠ key →
    ConfigManager.get inherited key' result.2 = ConfigManager.get inherited key' this ∧
    ConfigManager.has inherited key' result.2 = ConfigManager.has inherited key' this.
Proof.
  intros result. subst result. unfold ConfigManager.delete.
  destruct (ConfigManager.has inherited key this) eqn:Hhas; cbn [fst snd].
  - unfold ConfigManager.get, ConfigManager.has, get_property, has_property.
    cbn [ConfigManager.config]. rewrite lookup_delete_eq.
    split; [ done | ]. split; [ done | ]. split.
    + rewrite bool_decide_eq_false_2; [ done | by intros [? ?] ].
    + split; [ done | ]. intros key' Hne. by rewrite lookup_delete_ne.
  - unfold ConfigManager.get, ConfigManager.has, get_property, has_property in *.
    apply orb_false_elim in Hhas as [Hown Hinh].
    apply bool_decide_eq_false in Hown. apply bool_decide_eq_false in Hinh.
    apply eq_None_not_Some in Hown. apply eq_None_not_Some in Hinh.
    rewrite Hown, Hinh. split; [ done | ]. split; [ done | ]. split.
    + by rewrite !bool_decide_eq_false_2 by (by intros [? ?]).
    + done.
Qed.

End dictionary_facts.

(** ** Type guards *)

(** X20: [processUnknownValue] reports every string as a string, an
    e-mail address included: the branch of [isEmail] is never taken.
    A number is reported as a number unless it is [NaN], and anything
    else as of unknown type. *)
Theorem processUnknownValue_lines {E : Type} (console_log : string → E → E)
    (toUpperCase : string → string) (double_text : number → string)
    (h : gmap loc object) (value : val) (e : E) :
  processUnknownValue console_log toUpperCase double_text h value e =
  match value with
  | VStr s => console_log ("String: " +:+ toUpperCase s) e
  | VNum NNaN => console_log "Unknown type" e
  | VNum n => console_log ("Number: " +:+ double_text n) e
  | _ => console_log "Unknown type" e
  end.
Proof.
  unfold processUnknownValue, isEmail, isNumber, isString.
  destruct value as [ | | b | [ z | | neg | | neg s' e' ] | s | z | d | l ]; try done.
  cbn [typeof]. by destruct (h !! l) as [ [ | | ] | ].
Qed.

(** X21: the e-mail validation accepts a user, and [isEmail] a value,
    exactly when the e-mail, respectively the value, is a string
    [a@b.c] with [a], [b] and [c] not empty and free of white space and
    of [@]; [b] and [c] may hold dots. *)
Theorem createEmailValidation_accepts (h : gmap loc object) (user : User.t) (value : val) :
  let email_shaped s :=
    ∃ a b c,
      s = a +:+ "@" +:+ b +:+ "." +:+ c ∧
      (a ≠ "" ∧ all_chars not_space_or_at a = true) ∧
      (b ≠ "" ∧ all_chars not_space_or_at b = true) ∧
      (c ≠ "" ∧ all_chars not_space_or_at c = true) in
  (createEmailValidation user = true ↔ email_shaped (User.email user)) ∧
  (isEmail h value = true ↔ ∃ s, value = VStr s ∧ email_shaped s).
Proof.
  intros email_shaped. split; [ apply emailRegex_accepts | ].
  unfold isEmail, isString.
  destruct value as [ | | b | n | s | z | d | l ];
    try (split; [ done | by intros (? & ? & ?) ]).
  - cbn [typeof test_value]. rewrite andb_true_l, emailRegex_accepts.
    split; [ by exists s | by intros (? & [= <-] & ?) ].
  - cbn [typeof]. split; [ | by intros (? & ? & ?) ].
    by destruct (h !! l) as [ [ | | ] | ].
Qed.

(** ** Witnesses *)

Lemma getItem_after_setItem_witness :
  (localStorage.getItem "theme"
     (localStorage.setItem "LSuserDetails" (VStr "x") scenario_end).2).1
  = (localStorage.getItem "theme" scenario_end).1.
Proof.
  apply (getItem_after_setItem scenario_end "LSuserDetails" (VStr "x")).
  vm_compute. discriminate.
Defined.

Lemma getItem_after_removeItem_witness :
  UserRepositoryService.getAllUsers (localStorage.removeItem "LSuserDetails" scenario_end).2
  = (Ret VNull, (localStorage.removeItem "LSuserDetails" scenario_end).2).
Proof.
  apply (getItem_after_removeItem scenario_end "LSuserDetails"). reflexivity.
Defined.

Lemma saveUser_frame_witness :
  storage (UserRepositoryService.saveUser (VRef 1%positive) scenario_end).2 !! "theme"
  = storage scenario_end !! "theme".
Proof.
  apply (saveUser_frame scenario_end (VRef 1%positive)). vm_compute. discriminate.
Defined.

Lemma updateUser_first_match_witness :
  UserService.updateUser "9" (λ u, u) sampleService [] = (false, sampleService, []).
Proof.
  apply (updateUser_first_match "9" (λ u, u) sampleService []).
  unfold sampleService, sampleUsers. cbn [UserService.users].
  repeat constructor; vm_compute; discriminate.
Defined.

Lemma deleteUser_first_match_witness :
  UserService.deleteUser transcript "2" None sampleService [] =
    (true,
     UserService.Build
       [ User.Build "1" "john doe" "john@example.com" (NInt 25) true None;
         User.Build "3" "bob wilson" "bob@example.com" (NInt 45) false None ]
       {[ "user-deleted" := [log_deleted] ]},
     ["User deleted: jane smith"]).
Proof.
  apply (proj2 (deleteUser_first_match transcript "2" None sampleService [])
           [ User.Build "1" "john doe" "john@example.com" (NInt 25) true None ]
           (User.Build "2" "jane smith" "jane@example.com" (NInt 30) true None)
           [ User.Build "3" "bob wilson" "bob@example.com" (NInt 45) false None ]).
  - reflexivity.
  - repeat constructor; vm_compute; discriminate.
  - reflexivity.
Defined.

Lemma deleteUser_after_addUser_witness :
  UserService.users
    (UserService.deleteUser transcript "4" None
       (UserService.addUser transcript testUser None sampleService []).1.2 []).1.2
  = sampleUsers.
Proof.
  apply (deleteUser_after_addUser transcript testUser sampleService [] []).
  unfold sampleService, sampleUsers. cbn [UserService.users].
  repeat constructor; vm_compute; discriminate.
Defined.

Lemma memoize_same_key_witness :
  (memoize transcript first_argument None ∅ [VNull]
     (memoize transcript first_argument None ∅ [VUndefined] ∅ []).1.2
     (memoize transcript first_argument None ∅ [VUndefined] ∅ []).2).1.1
  = (memoize transcript first_argument None ∅ [VUndefined] ∅ []).1.1.
Proof.
  apply (memoize_same_key transcript first_argument None ∅ [VUndefined] [VNull] "[null]" ∅ []).
  - vm_compute. reflexivity.
  - vm_compute. reflexivity.
Defined.

Lemma rateLimit_run_bound_witness :
  length (rateLimit_run transcript first_argument two_and_a_half 1000 [1; 2; 3; 4; 5] [] []).1
    = 3%nat ∧
  (3 = 0 ∨ (inject_Z (3 - 1) < 25 # 10)%Q).
Proof.
  split; [ vm_compute; reflexivity | ].
  apply (rateLimit_run_bound transcript first_argument two_and_a_half 1000 [1; 2; 3; 4; 5] []).
  vm_compute. reflexivity.
Defined.

Lemma rateLimit_never_passes_witness :
  rateLimit transcript first_argument (NInt 0) 1000 5 [VNull] [] [] =
    (VUndefined, [], ["Rate limit exceeded, skipping call"]).
Proof.
  apply (rateLimit_never_passes transcript first_argument (NInt 0) 1000 5 [VNull] [] []).
  vm_compute. reflexivity.
Defined.

Lemma rateLimit_window_witness :
  rateLimit transcript first_argument (NInt 2) 1000 1200 [VNull] [100; 300] [] =
    (VNull, [300; 1200], ["called"]) ∧
  rateLimit transcript first_argument two_and_a_half 1000 1200 [VNull] [300; 400; 500] [] =
    (VUndefined, [300; 400; 500], ["Rate limit exceeded, skipping call"]) ∧
  rateLimit transcript first_argument NNaN 1000 1200 [VNull] [300; 400; 500] [] =
    (VNull, [300; 400; 500; 1200], ["called"]).
Proof.
  split; [ | split ].
  - apply (rateLimit_window transcript first_argument (NInt 2) 1000 1200 [VNull] [100; 300] []).
    + lia.
    + repeat constructor; lia.
    + repeat constructor; lia.
  - apply (rateLimit_window transcript first_argument two_and_a_half 1000 1200 [VNull]
             [300; 400; 500] []).
    + lia.
    + repeat constructor; lia.
    + repeat constructor; lia.
  - apply (rateLimit_window transcript first_argument NNaN 1000 1200 [VNull]
             [300; 400; 500] []).
    + lia.
    + repeat constructor; lia.
    + repeat constructor; lia.
Defined.

Lemma createAgeFilter_accepts_witness :
  createAgeFilter (NInt 20) (NInt 35)
    (User.Build "5" "carol" "carol@example.com" (NDec false 255 (-1)) true None) = true.
Proof.
  destruct (createAgeFilter_accepts (NInt 20) (NInt 35) (inject_Z 20) (inject_Z 35)
              (User.Build "5" "carol" "carol@example.com" (NDec false 255 (-1)) true None))
    as [[_ Haccepts] _].
  - reflexivity.
  - reflexivity.
  - apply Haccepts. exists (255 # 10)%Q.
    split; [ reflexivity | ]. split; vm_compute; discriminate.
Defined.

Lemma getFromDictionary_after_add_witness :
  getFromDictionary sample_inherited
    (addToDictionary {[ "a" := VNum (NInt 1) ]} "d" (VNum (NInt 4))) "a"
  = getFromDictionary sample_inherited {[ "a" := VNum (NInt 1) ]} "a".
Proof.
  apply (getFromDictionary_after_add sample_inherited
           {[ "a" := VNum (NInt 1) ]} "d" (VNum (NInt 4))).
  vm_compute. discriminate.
Defined.

Lemma ConfigManager_get_after_set_witness :
  ∃ this',
    ConfigManager.set "debug" VUndefined ConfigManager.new = Some this' ∧
    ConfigManager.get sample_inherited "debug" this' = VUndefined ∧
    ConfigManager.has sample_inherited "debug" this' = true ∧
    ∀ key', key' ≠ "debug" →
      ConfigManager.get sample_inherited key' this'
        = ConfigManager.get sample_inherited key' ConfigManager.new ∧
      ConfigManager.has sample_inherited key' this'
        = ConfigManager.has sample_inherited key' ConfigManager.new.
Proof.
  apply (ConfigManager_get_after_set sample_inherited "debug" VUndefined ConfigManager.new).
  vm_compute. discriminate.
Defined.

Lemma ConfigManager_delete_witness :
  (ConfigManager.delete sample_inherited "port" ConfigManager.new).2 = ConfigManager.new.
Proof.
  apply (ConfigManager_delete sample_inherited "port" ConfigManager.new).
  vm_compute. reflexivity.
Defined.
